(** * gomavlib: the channel lifecycle ([channel.go]) and its events

    A shallow embedding of [newChannel] and [Channel.run].

    [newChannel] is sequential code and is written in state-passing style
    over a small [World].  [Channel.run] starts two goroutines and then
    arbitrates the shutdown; it is written as an executable labelled
    transition function [step] over the program counters of the reader
    goroutine, the writer goroutine and the body of [run] itself.  A label
    names the goroutine that moves and carries whatever the outside supplies
    at that point (the result of [parser.Read], the item handed over on
    [writec], the branch a ready [select] picks).  Every operation that the
    code performs on something outside the goroutine is appended to a log, so
    that properties of the program are properties of the logs of all
    executions.

    Blocking is scheduling: an operation that waits for a partner outside
    (a send on [eventsOut] or [channelClose], a [Read] on the stream) is a
    step that is taken when the partner is ready, and an execution in which
    the partner never is simply does not contain it.  An operation that waits
    for something inside (a closed [readerDone], [writerDone], [terminate] or
    [writec]) is a step that is possible only once that has happened.

    The stream-request hook [onEventFrame] lives in another file.  Its call
    is an interval: while it lasts, the hook may send events of its own
    (such as [EventStreamRequested]) on [eventsOut]; each of these sends is
    a step and an entry of the log, performed by [THook], and the call of
    the reader is entered in the log when it returns. *)

From Stdlib Require Import List Bool String Ascii Arith ZArith Lia.
From Stdlib Require Import Permutation Sorted.
From Stdlib Require Import Strings.Byte.
Import ListNotations.

Set Implicit Arguments.

(** ** Collaborators

    Types and operations that [channel.go] uses but does not define.  They are
    interfaces in the Go code ([Frame], [Message], [error],
    [io.ReadWriteCloser], [interface{}]) or structures of other files
    ([Parser], [Dialect]).  The classifiers are the dynamic type tests the
    code performs: the assertion of [err] to a pointer to [ParserError], and
    the type switch over a value taken from [writec], which tries [Message]
    first and [Frame] second. *)
Class Collaborators : Type := {
  Endpoint : Type;
  ReadWriteCloser : Type;
  Frame : Type;
  Message : Type;
  error : Type;
  Dialect : Type;
  Key : Type;
  Version : Type;
  Parser : Type;
  StreamRequest : Type;
  Any : Type;
  isParserError : error -> bool;
  asMessage : Any -> option Message;
  asFrame : Any -> option Frame
}.

(** ** Data model *)

(** The fields of [n.conf] that [newChannel] reads. *)
Record NodeConf `{Collaborators} : Type := {
  conf_Dialect : Dialect;
  conf_InKey : Key;
  conf_OutSystemId : byte;
  conf_OutVersion : Version;
  conf_OutComponentId : byte;
  conf_OutKey : Key
}.

(** [Node], as far as a channel looks into it: the configuration and the
    optional stream-request hook ([nil] is [None]).  The queues [eventsOut]
    and [channelClose] of the node are the sinks recorded in the log. *)
Record Node `{Collaborators} : Type := {
  conf : NodeConf;
  nodeStreamRequest : option StreamRequest
}.

Record ParserConf `{Collaborators} : Type := {
  Reader : ReadWriteCloser;
  Writer : ReadWriteCloser;
  pconf_Dialect : Dialect;
  InKey : Key;
  OutSystemId : byte;
  OutVersion : Version;
  OutComponentId : byte;
  OutSignatureLinkId : byte;
  OutKey : Key
}.

(** [Channel].  The three Go channels [writec], [terminate] and [done] are
    created empty and open by [newChannel]; their state lives in the state of
    [run] below. *)
Record Channel `{Collaborators} : Type := {
  ch_Endpoint : Endpoint;
  label : string;
  rwc : ReadWriteCloser;
  n : Node;
  parser : Parser
}.

(** The events of the node, one constructor per event structure. *)
Inductive Event `{Collaborators} : Type :=
| EventChannelOpen (c : Channel)
| EventChannelClose (c : Channel)
| EventFrame (f : Frame) (c : Channel)
| EventParseError (e : error) (c : Channel)
| EventStreamRequested (c : Channel) (SystemId ComponentId : byte).

(** ** Construction *)

Inductive StreamOp : Type := OpRead | OpWrite | OpClose.

(** What [newChannel] could touch: the entropy behind [randomByte], the
    operations performed so far on raw streams, and the number of goroutines
    started. *)
Record World `{Collaborators} : Type := {
  entropy : nat -> byte;
  drawn : nat;
  stream_ops : list (ReadWriteCloser * StreamOp);
  goroutines : nat
}.

(** Modelled from the spec: [randomByte] is not part of the sources at hand;
    the link identifier is "freshly randomized", so every call takes the next
    byte of the entropy and moves past it. *)
Definition randomByte `{Collaborators} (w : World) : byte * World :=
  (entropy w (drawn w),
   {| entropy := entropy w; drawn := S (drawn w);
      stream_ops := stream_ops w; goroutines := goroutines w |}).

Section Construction.
Context `{Collaborators}.

(** [NewParser] belongs to the frame codec; it either yields a parser or
    rejects the configuration. *)
Variable NewParser : ParserConf -> Parser + error.

Definition newChannel (n0 : Node) (e : Endpoint) (label0 : string)
    (rwc0 : ReadWriteCloser) (w : World) : (Channel + error) * World :=
  let (b, w1) := randomByte w in
  match NewParser {| Reader := rwc0;
                     Writer := rwc0;
                     pconf_Dialect := conf_Dialect (conf n0);
                     InKey := conf_InKey (conf n0);
                     OutSystemId := conf_OutSystemId (conf n0);
                     OutVersion := conf_OutVersion (conf n0);
                     OutComponentId := conf_OutComponentId (conf n0);
                     OutSignatureLinkId := b;
                     OutKey := conf_OutKey (conf n0) |} with
  | inr err => (inr err, w1)
  | inl p =>
      (inl {| ch_Endpoint := e; label := label0; rwc := rwc0; n := n0;
              parser := p |}, w1)
  end.

(** [ch.String()] is the label. *)
Definition Channel_String (ch : Channel) : string := label ch.

End Construction.

(** ** Running a channel: program counters, labels and the log *)

(** Outcome of [ch.parser.Read()]: a frame, or an error. *)
Inductive ReadResult `{Collaborators} : Type :=
| ReadFrame (f : Frame)
| ReadError (e : error).

(** The two cases of the [select] at the end of [run]. *)
Inductive Path : Type :=
| PathReaderDone   (* case <-readerDone   *)
| PathTerminate.   (* case <-ch.terminate *)

(** Who performs an operation: the two goroutines (the statements of their
    function literals in [run]), the body of [run], the hub that owns the
    channel, and the stream-request hook (the statements of [onEventFrame],
    which run in the reader goroutine while the reader calls it). *)
Inductive Task : Type := TReader | TWriter | TRun | THub | THook.

Definition Task_eqb (a b : Task) : bool :=
  match a, b with
  | TReader, TReader | TWriter, TWriter | TRun, TRun | THub, THub
  | THook, THook => true
  | _, _ => false
  end.

(** One entry of the log per operation of the code. *)
Inductive Action `{Collaborators} : Type :=
| AGo (t : Task)                  (* go func() { ... }()             *)
| APublish (ev : Event)           (* ch.n.eventsOut <- ev            *)
| ARead (r : ReadResult)          (* ch.parser.Read() returned r     *)
| AOnEventFrame (sr : StreamRequest) (ev : Event)
                                  (* sr.onEventFrame(evt) returned   *)
| ATake (what : Any)              (* what received from ch.writec    *)
| AWriteMessage (m : Message) (res : option error)
                                  (* ch.parser.WriteMessage(wh)      *)
| AWriteFrame (f : Frame) (res : option error)
                                  (* ch.parser.WriteFrame(wh)        *)
| ACloseTaskDone                  (* close(readerDone / writerDone)  *)
| ASelect (p : Path)              (* the select takes case p         *)
| AReport                         (* ch.n.channelClose <- ch         *)
| AAwaitTerminate                 (* <-ch.terminate, line 109        *)
| ACloseWritec                    (* close(ch.writec)                *)
| AJoin (t : Task)                (* <-writerDone, <-readerDone      *)
| ACloseRwc                       (* ch.rwc.Close()                  *)
| ACloseDone                      (* close(ch.done), deferred        *)
| ARequestTerminate.              (* the hub gives the signal        *)

Definition Entry `{Collaborators} : Type := (Task * Action)%type.

(** Reader goroutine: the statement it executes next. *)
Inductive ReaderPc `{Collaborators} : Type :=
| RNotStarted
| RPublishOpen                                   (* line 66 *)
| RRead                                          (* line 69 *)
| RPublishParseError (e : error)                 (* line 73 *)
| ROnEventFrame (sr : StreamRequest) (f : Frame) (* line 82, in the call *)
| RPublishFrame (f : Frame)                      (* line 85 *)
| RReturn                                        (* line 76, then the defer *)
| RDone.

(** Writer goroutine. *)
Inductive WriterPc `{Collaborators} : Type :=
| WNotStarted
| WRange                                         (* line 93 *)
| WWriteMessage (m : Message)                    (* line 96 *)
| WWriteFrame (f : Frame)                        (* line 99 *)
| WReturn
| WDone.

(** The body of [run]. *)
Inductive RunPc : Type :=
| RunGoReader | RunGoWriter | RunSelect
| A_PublishClose | A_Report | A_AwaitTerminate
| A_CloseWritec | A_JoinWriter | A_CloseRwc       (* lines 106-114 *)
| B_PublishClose | B_CloseWritec | B_JoinWriter
| B_CloseRwc | B_JoinReader                       (* lines 117-123 *)
| RunDefer (p : Path)                             (* line 58 *)
| RunReturned (p : Path).

Record State `{Collaborators} : Type := {
  rpc : ReaderPc;
  wpc : WriterPc;
  pc : RunPc;
  terminate : bool;       (* a receive from ch.terminate succeeds *)
  writec_closed : bool;
  done : bool;            (* ch.done is closed *)
  log : list Entry
}.

(** What the scheduler and the outside decide at each step. *)
Inductive Label `{Collaborators} : Type :=
| LRun                            (* run: next statement, except the select *)
| LSelect (p : Path)              (* run: the select takes case p *)
| LReader                         (* reader: next statement, except Read *)
| LRead (r : ReadResult)          (* reader: Read returns r *)
| LHook (ev : Event)              (* hook: sends ev during its call *)
| LTake (what : option Any)       (* writer: range yields an item, or ends *)
| LWrite (res : option error)     (* writer: the write returns res *)
| LWriter                         (* writer: the deferred close *)
| LTerminate.                     (* hub: termination is requested *)

(** ** [Channel.run] as a transition function *)

Section Run.
Context `{Collaborators}.

(** The channel that runs. *)
Variable ch : Channel.

(** [run] is about to start the reader; nothing has happened. *)
Definition init : State :=
  {| rpc := RNotStarted; wpc := WNotStarted; pc := RunGoReader;
     terminate := false; writec_closed := false; done := false;
     log := [] |}.

(** Task [t] performs [a]. *)
Definition emit (t : Task) (a : Action) (s : State) : State :=
  {| rpc := rpc s; wpc := wpc s; pc := pc s; terminate := terminate s;
     writec_closed := writec_closed s; done := done s;
     log := log s ++ [(t, a)] |}.

Definition reader_to (r : ReaderPc) (s : State) : State :=
  {| rpc := r; wpc := wpc s; pc := pc s; terminate := terminate s;
     writec_closed := writec_closed s; done := done s; log := log s |}.

Definition writer_to (w : WriterPc) (s : State) : State :=
  {| rpc := rpc s; wpc := w; pc := pc s; terminate := terminate s;
     writec_closed := writec_closed s; done := done s; log := log s |}.

Definition run_to (p : RunPc) (s : State) : State :=
  {| rpc := rpc s; wpc := wpc s; pc := p; terminate := terminate s;
     writec_closed := writec_closed s; done := done s; log := log s |}.

Definition set_terminate (s : State) : State :=
  {| rpc := rpc s; wpc := wpc s; pc := pc s; terminate := true;
     writec_closed := writec_closed s; done := done s; log := log s |}.

Definition set_writec_closed (s : State) : State :=
  {| rpc := rpc s; wpc := wpc s; pc := pc s; terminate := terminate s;
     writec_closed := true; done := done s; log := log s |}.

Definition set_done (s : State) : State :=
  {| rpc := rpc s; wpc := wpc s; pc := pc s; terminate := terminate s;
     writec_closed := writec_closed s; done := true; log := log s |}.

(** *** The reader goroutine (lines 61-87) *)

(** Everything but the call of [Read]: the sends on [eventsOut], the
    return of the call of the hook, and the deferred [close(readerDone)]. *)
Definition reader_step (s : State) : option State :=
  match rpc s with
  | RPublishOpen =>
      Some (reader_to RRead
              (emit TReader (APublish (EventChannelOpen ch)) s))
  | RPublishParseError e =>
      Some (reader_to RRead
              (emit TReader (APublish (EventParseError e ch)) s))
  | ROnEventFrame sr f =>
      Some (reader_to (RPublishFrame f)
              (emit TReader (AOnEventFrame sr (EventFrame f ch)) s))
  | RPublishFrame f =>
      Some (reader_to RRead
              (emit TReader (APublish (EventFrame f ch)) s))
  | RReturn =>
      Some (reader_to RDone (emit TReader ACloseTaskDone s))
  | RNotStarted | RRead | RDone => None
  end.

(** [frame, err := ch.parser.Read()] and the branching on its result. *)
Definition reader_read (r : ReadResult) (s : State) : option State :=
  match rpc s with
  | RRead =>
      let s1 := emit TReader (ARead r) s in
      match r with
      | ReadError e =>
          if isParserError e
          then Some (reader_to (RPublishParseError e) s1)
          else Some (reader_to RReturn s1)
      | ReadFrame f =>
          match nodeStreamRequest (n ch) with
          | Some sr => Some (reader_to (ROnEventFrame sr f) s1)
          | None => Some (reader_to (RPublishFrame f) s1)
          end
      end
  | _ => None
  end.

(** Modelled from the spec: the code of [onEventFrame] is not in
    [channel.go].  The hook is "invoked synchronously with the event before
    publishing to the Event Bus (it may itself publish further events, e.g.
    [StreamRequested])": as long as the call of line 82 has not returned,
    the hook may send any event on [eventsOut], any number of times. *)
Definition hook_publish (ev : Event) (s : State) : option State :=
  match rpc s with
  | ROnEventFrame _ _ => Some (emit THook (APublish ev) s)
  | _ => None
  end.

(** *** The writer goroutine (lines 90-102) *)

(** The type switch of lines 94-100: where the writer goes with [what]. *)
Definition writer_switch (what : Any) : WriterPc :=
  match asMessage what with
  | Some m => WWriteMessage m
  | None =>
      match asFrame what with
      | Some f => WWriteFrame f
      | None => WRange
      end
  end.

(** One turn of [for what := range ch.writec]: an item is handed over
    while the queue is open, or the loop ends once it is closed. *)
Definition writer_take (what : option Any) (s : State) : option State :=
  match wpc s with
  | WRange =>
      match what with
      | Some w =>
          if writec_closed s then None
          else Some (writer_to (writer_switch w) (emit TWriter (ATake w) s))
      | None =>
          if writec_closed s then Some (writer_to WReturn s) else None
      end
  | _ => None
  end.

(** [WriteMessage] or [WriteFrame] returns [res]; the code does not bind
    the result. *)
Definition writer_write (res : option error) (s : State) : option State :=
  match wpc s with
  | WWriteMessage m =>
      Some (writer_to WRange (emit TWriter (AWriteMessage m res) s))
  | WWriteFrame f =>
      Some (writer_to WRange (emit TWriter (AWriteFrame f res) s))
  | _ => None
  end.

(** The deferred [close(writerDone)]. *)
Definition writer_step (s : State) : option State :=
  match wpc s with
  | WReturn => Some (writer_to WDone (emit TWriter ACloseTaskDone s))
  | _ => None
  end.

(** *** The body of [run] (lines 57-125) *)

(** The [select] of line 104 takes case [p]: [readerDone] must be closed
    for the one, the termination signal given for the other; when both hold,
    either case may be taken. *)
Definition run_select (p : Path) (s : State) : option State :=
  match pc s with
  | RunSelect =>
      match p with
      | PathReaderDone =>
          match rpc s with
          | RDone => Some (run_to A_PublishClose (emit TRun (ASelect p) s))
          | _ => None
          end
      | PathTerminate =>
          if terminate s
          then Some (run_to B_PublishClose (emit TRun (ASelect p) s))
          else None
      end
  | _ => None
  end.

(** Every other statement of [run], one at a time.  The two joins are
    receives from [writerDone] and [readerDone], possible once the goroutine
    has closed it. *)
Definition run_step (s : State) : option State :=
  match pc s with
  | RunGoReader =>
      Some (run_to RunGoWriter
              (reader_to RPublishOpen (emit TRun (AGo TReader) s)))
  | RunGoWriter =>
      Some (run_to RunSelect
              (writer_to WRange (emit TRun (AGo TWriter) s)))
  | RunSelect => None
  | A_PublishClose =>
      Some (run_to A_Report
              (emit TRun (APublish (EventChannelClose ch)) s))
  | A_Report => Some (run_to A_AwaitTerminate (emit TRun AReport s))
  | A_AwaitTerminate =>
      if terminate s
      then Some (run_to A_CloseWritec (emit TRun AAwaitTerminate s))
      else None
  | A_CloseWritec =>
      Some (run_to A_JoinWriter
              (set_writec_closed (emit TRun ACloseWritec s)))
  | A_JoinWriter =>
      match wpc s with
      | WDone => Some (run_to A_CloseRwc (emit TRun (AJoin TWriter) s))
      | _ => None
      end
  | A_CloseRwc =>
      Some (run_to (RunDefer PathReaderDone) (emit TRun ACloseRwc s))
  | B_PublishClose =>
      Some (run_to B_CloseWritec
              (emit TRun (APublish (EventChannelClose ch)) s))
  | B_CloseWritec =>
      Some (run_to B_JoinWriter
              (set_writec_closed (emit TRun ACloseWritec s)))
  | B_JoinWriter =>
      match wpc s with
      | WDone => Some (run_to B_CloseRwc (emit TRun (AJoin TWriter) s))
      | _ => None
      end
  | B_CloseRwc => Some (run_to B_JoinReader (emit TRun ACloseRwc s))
  | B_JoinReader =>
      match rpc s with
      | RDone =>
          Some (run_to (RunDefer PathTerminate)
                  (emit TRun (AJoin TReader) s))
      | _ => None
      end
  | RunDefer p =>
      Some (run_to (RunReturned p) (set_done (emit TRun ACloseDone s)))
  | RunReturned _ => None
  end.

(** *** The hub *)

(** Modelled from the spec: the hub's side of [ch.terminate] is not in
    [channel.go].  The termination signal is a "single-use request for
    external shutdown" that may arrive at any time; once given, every
    receive from [ch.terminate] succeeds (the [select] case as well as the
    receive of line 109). *)
Definition hub_terminate (s : State) : option State :=
  if terminate s then None
  else Some (set_terminate (emit THub ARequestTerminate s)).

(** *** Steps and executions *)

(** One step of the channel; [None] when label [l] names a step that is
    not possible in state [s]. *)
Definition step (l : Label) (s : State) : option State :=
  match l with
  | LRun => run_step s
  | LSelect p => run_select p s
  | LReader => reader_step s
  | LRead r => reader_read r s
  | LHook ev => hook_publish ev s
  | LTake what => writer_take what s
  | LWrite res => writer_write res s
  | LWriter => writer_step s
  | LTerminate => hub_terminate s
  end.

Fixpoint exec (ls : list Label) (s : State) : option State :=
  match ls with
  | [] => Some s
  | l :: ls' =>
      match step l s with
      | Some s' => exec ls' s'
      | None => None
      end
  end.

(** [ch.run()] under the schedule [ls]: the state reached, if every label of
    [ls] names a step that is possible when its turn comes. *)
Definition run (ls : list Label) : option State := exec ls init.

(** *** Reading the log *)

(** What one task has done, in order. *)
Definition by_task (t : Task) (lg : list Entry) : list Action :=
  map snd (filter (fun e => Task_eqb (fst e) t) lg).

Definition published (a : Action) : list Event :=
  match a with
  | APublish ev => [ev]
  | _ => []
  end.

(** The events sent on [eventsOut], in the order of the sends. *)
Definition events (lg : list Entry) : list Event :=
  flat_map (fun e => published (snd e)) lg.

(** The log without what the hook did. *)
Definition without_hook (lg : list Entry) : list Entry :=
  filter (fun e => negb (Task_eqb (fst e) THook)) lg.

(** The events that the statements of [channel.go] send: those of the two
    goroutines and of [run], not those of the hook. *)
Definition own_events (lg : list Entry) : list Event :=
  events (without_hook lg).

(** Which case of the [select] ran, if any yet. *)
Definition path_of (p : RunPc) : option Path :=
  match p with
  | RunGoReader | RunGoWriter | RunSelect => None
  | A_PublishClose | A_Report | A_AwaitTerminate
  | A_CloseWritec | A_JoinWriter | A_CloseRwc => Some PathReaderDone
  | B_PublishClose | B_CloseWritec | B_JoinWriter
  | B_CloseRwc | B_JoinReader => Some PathTerminate
  | RunDefer p | RunReturned p => Some p
  end.

End Run.

(** ** The patterns the specification speaks of *)

Section Patterns.
Context `{Collaborators}.

(** [(Frame | ParseError)* Close] *)
Fixpoint data_then_close (evs : list Event) : bool :=
  match evs with
  | [EventChannelClose _] => true
  | EventFrame _ _ :: rest | EventParseError _ _ :: rest =>
      data_then_close rest
  | _ => false
  end.

(** [Open (Frame | ParseError)* Close] *)
Definition lifecycle_pattern (evs : list Event) : bool :=
  match evs with
  | EventChannelOpen _ :: rest => data_then_close rest
  | _ => false
  end.

(** A [Frame] or [ParseError] event of channel [ch]. *)
Definition data_event (ch : Channel) (ev : Event) : Prop :=
  (exists f, ev = EventFrame f ch) \/ (exists e, ev = EventParseError e ch).

(** Nothing yet, or [Open] followed by data events only. *)
Definition open_then_data (ch : Channel) (evs : list Event) : Prop :=
  evs = [] \/
  exists d, evs = EventChannelOpen ch :: d /\ Forall (data_event ch) d.

(** An event that is not one of the lifecycle: a stream request. *)
Definition is_stream_requested (ev : Event) : bool :=
  match ev with
  | EventStreamRequested _ _ _ => true
  | _ => false
  end.

(** The statements of the two [select] cases, in program order: lines
    106-114. *)
Definition shutdown_reader_done (ch : Channel) : list Action :=
  [APublish (EventChannelClose ch); AReport; AAwaitTerminate;
   ACloseWritec; AJoin TWriter; ACloseRwc].

(** Lines 117-123. *)
Definition shutdown_terminate (ch : Channel) : list Action :=
  [APublish (EventChannelClose ch); ACloseWritec; AJoin TWriter;
   ACloseRwc; AJoin TReader].

(** Recognisers for the two operations that are counted. *)
Definition is_select (a : Action) : bool :=
  match a with ASelect _ => true | _ => false end.

Definition is_close_rwc (a : Action) : bool :=
  match a with ACloseRwc => true | _ => false end.

(** How often an operation occurs in a log, whoever performs it. *)
Definition count (p : Action -> bool) (lg : list Entry) : nat :=
  List.length (filter (fun e => p (snd e)) lg).

(** Every [y] in [l] has an [x] somewhere before it. *)
Definition preceded_by {A : Type} (x y : A) (l : list A) : Prop :=
  forall pre post, l = pre ++ y :: post -> In x pre.

(** Write results erased: what an execution looks like to someone who
    cannot see whether a write failed. *)
Definition erase_action (a : Action) : Action :=
  match a with
  | AWriteMessage m _ => AWriteMessage m None
  | AWriteFrame f _ => AWriteFrame f None
  | _ => a
  end.

Definition erase_label (l : Label) : Label :=
  match l with
  | LWrite _ => LWrite None
  | _ => l
  end.

Definition erase_state (s : State) : State :=
  {| rpc := rpc s; wpc := wpc s; pc := pc s; terminate := terminate s;
     writec_closed := writec_closed s; done := done s;
     log := map (fun e => (fst e, erase_action (snd e))) (log s) |}.

End Patterns.

(** ** What the invariants are made of *)

Section Invariants.
Context `{Collaborators}.
Variable ch : Channel.

(** The states some execution of [run] passes through. *)
Definition Reachable (s : State) : Prop :=
  exists ls, run ch ls = Some s.

(** The goroutines [run] has started when it stands at [p]. *)
Definition started (p : RunPc) : list Action :=
  match p with
  | RunGoReader => []
  | RunGoWriter => [AGo TReader]
  | _ => [AGo TReader; AGo TWriter]
  end.

(** Number of statements executed after the [select]. *)
Definition executed (p : RunPc) : nat :=
  match p with
  | RunGoReader | RunGoWriter | RunSelect => 0
  | A_PublishClose => 0 | A_Report => 1 | A_AwaitTerminate => 2
  | A_CloseWritec => 3 | A_JoinWriter => 4 | A_CloseRwc => 5
  | RunDefer PathReaderDone => 6 | RunReturned PathReaderDone => 7
  | B_PublishClose => 0 | B_CloseWritec => 1 | B_JoinWriter => 2
  | B_CloseRwc => 3 | B_JoinReader => 4
  | RunDefer PathTerminate => 5 | RunReturned PathTerminate => 6
  end.

(** The statements of case [p] of the [select]. *)
Definition shutdown (p : Path) : list Action :=
  match p with
  | PathReaderDone => shutdown_reader_done ch
  | PathTerminate => shutdown_terminate ch
  end.

(** Everything [run] has done when it stands at [p]. *)
Definition run_trace (p : RunPc) : list Action :=
  started p ++
  match path_of p with
  | None => []
  | Some q => ASelect q :: firstn (executed p) (shutdown q ++ [ACloseDone])
  end.

(** Which task performs which operation. *)
Definition performer (t : Task) (a : Action) : Prop :=
  match a with
  | APublish ev =>
      (t = TReader /\ (ev = EventChannelOpen ch \/ data_event ch ev)) \/
      (t = TRun /\ ev = EventChannelClose ch) \/
      t = THook
  | ARead _ | AOnEventFrame _ _ => t = TReader
  | ATake _ | AWriteMessage _ _ | AWriteFrame _ _ => t = TWriter
  | ACloseTaskDone => t = TReader \/ t = TWriter
  | ARequestTerminate => t = THub
  | AGo _ | ASelect _ | AReport | AAwaitTerminate | ACloseWritec
  | AJoin _ | ACloseRwc | ACloseDone => t = TRun
  end.

(** What the flags and final program counters say about the log. *)
Definition flags_ok (s : State) : Prop :=
  (terminate s = true -> In (THub, ARequestTerminate) (log s)) /\
  (wpc s = WDone -> In (TWriter, ACloseTaskDone) (log s)) /\
  (rpc s = RDone -> In (TReader, ACloseTaskDone) (log s)) /\
  (done s = true -> exists p, pc s = RunReturned p) /\
  (path_of (pc s) = Some PathReaderDone -> rpc s = RDone).

(** A blocking receive returns only after what it waits for. *)
Definition blocking_ok (lg : list Entry) : Prop :=
  preceded_by (TReader, ACloseTaskDone) (TRun, ASelect PathReaderDone) lg /\
  preceded_by (THub, ARequestTerminate) (TRun, ASelect PathTerminate) lg /\
  preceded_by (THub, ARequestTerminate) (TRun, AAwaitTerminate) lg /\
  preceded_by (TWriter, ACloseTaskDone) (TRun, AJoin TWriter) lg /\
  preceded_by (TReader, ACloseTaskDone) (TRun, AJoin TReader) lg.

(** How often the [select] has taken a case when [run] stands at [p]. *)
Definition selects_of (p : RunPc) : nat :=
  match path_of p with None => 0 | Some _ => 1 end.

(** How often [run] has closed the stream when it stands at [p]. *)
Definition closes_of (p : RunPc) : nat :=
  match p with
  | RunDefer _ | RunReturned _ | B_JoinReader => 1
  | _ => 0
  end.

(** Whenever [b] comes directly after [a] in [l], [R a b]. *)
Definition adjacent (A : Type) (R : A -> A -> Prop) (l : list A) : Prop :=
  forall pre a b post, l = pre ++ a :: b :: post -> R a b.

(** What the reader may do directly after what. *)
Inductive reader_succ : Action -> Action -> Prop :=
| RS_read ev r : reader_succ (APublish ev) (ARead r)
| RS_parse e :
    isParserError e = true ->
    reader_succ (ARead (ReadError e)) (APublish (EventParseError e ch))
| RS_fatal e :
    isParserError e = false ->
    reader_succ (ARead (ReadError e)) ACloseTaskDone
| RS_hook sr f :
    nodeStreamRequest (n ch) = Some sr ->
    reader_succ (ARead (ReadFrame f)) (AOnEventFrame sr (EventFrame f ch))
| RS_direct f :
    nodeStreamRequest (n ch) = None ->
    reader_succ (ARead (ReadFrame f)) (APublish (EventFrame f ch))
| RS_frame sr f :
    nodeStreamRequest (n ch) = Some sr ->
    reader_succ (AOnEventFrame sr (EventFrame f ch))
                (APublish (EventFrame f ch)).

(** Where the reader stands, from the last thing it did. *)
Definition reader_at (rl : list Action) (r : ReaderPc) : Prop :=
  match r with
  | RNotStarted | RPublishOpen => rl = []
  | RRead => exists pre ev, rl = pre ++ [APublish ev]
  | RPublishParseError e =>
      isParserError e = true /\ exists pre, rl = pre ++ [ARead (ReadError e)]
  | ROnEventFrame sr f =>
      nodeStreamRequest (n ch) = Some sr /\
      exists pre, rl = pre ++ [ARead (ReadFrame f)]
  | RPublishFrame f =>
      exists pre,
        (nodeStreamRequest (n ch) = None /\
         rl = pre ++ [ARead (ReadFrame f)]) \/
        (exists sr, nodeStreamRequest (n ch) = Some sr /\
                    rl = pre ++ [AOnEventFrame sr (EventFrame f ch)])
  | RReturn =>
      exists pre e,
        isParserError e = false /\ rl = pre ++ [ARead (ReadError e)]
  | RDone => exists pre, rl = pre ++ [ACloseTaskDone]
  end.

(** The log of the reader: consecutive operations follow [reader_succ], the
    last one fits the program counter, the first one is the send of
    [ChannelOpen]. *)
Definition reader_ok (s : State) : Prop :=
  adjacent reader_succ (by_task TReader (log s)) /\
  reader_at (by_task TReader (log s)) (rpc s) /\
  (by_task TReader (log s) = [] \/
   exists rest,
     by_task TReader (log s) = APublish (EventChannelOpen ch) :: rest).

(** The writer is back at the head of its loop: it takes the next item, or
    it leaves because the queue is closed. *)
Definition loop_again (b : Action) : Prop :=
  (exists what, b = ATake what) \/ b = ACloseTaskDone.

(** What the writer may do directly after what. *)
Inductive writer_succ : Action -> Action -> Prop :=
| WS_message what m res :
    asMessage what = Some m ->
    writer_succ (ATake what) (AWriteMessage m res)
| WS_frame what f res :
    asMessage what = None -> asFrame what = Some f ->
    writer_succ (ATake what) (AWriteFrame f res)
| WS_skip what b :
    asMessage what = None -> asFrame what = None -> loop_again b ->
    writer_succ (ATake what) b
| WS_message_written m res b :
    loop_again b -> writer_succ (AWriteMessage m res) b
| WS_frame_written f res b :
    loop_again b -> writer_succ (AWriteFrame f res) b.

(** After [a] the writer is at the [range] again. *)
Definition back_at_range (a : Action) : Prop :=
  (exists m res, a = AWriteMessage m res) \/
  (exists f res, a = AWriteFrame f res) \/
  (exists what,
     a = ATake what /\ asMessage what = None /\ asFrame what = None).

(** Where the writer stands, from the last thing it did. *)
Definition writer_at (wl : list Action) (w : WriterPc) : Prop :=
  match w with
  | WNotStarted => wl = []
  | WRange | WReturn =>
      wl = [] \/ exists pre a, wl = pre ++ [a] /\ back_at_range a
  | WWriteMessage m =>
      exists pre what, wl = pre ++ [ATake what] /\ asMessage what = Some m
  | WWriteFrame f =>
      exists pre what,
        wl = pre ++ [ATake what] /\
        asMessage what = None /\ asFrame what = Some f
  | WDone => exists pre, wl = pre ++ [ACloseTaskDone]
  end.

(** The log of the writer: consecutive operations follow [writer_succ] and
    the last one fits the program counter. *)
Definition writer_ok (s : State) : Prop :=
  adjacent writer_succ (by_task TWriter (log s)) /\
  writer_at (by_task TWriter (log s)) (wpc s).

(** [run] has sent [ChannelClose]. *)
Definition close_published (p : RunPc) : bool :=
  match p with
  | RunGoReader | RunGoWriter | RunSelect
  | A_PublishClose | B_PublishClose => false
  | _ => true
  end.

(** The events sent by the statements of the reader goroutine (lines 66,
    73 and 85), not by the hook it calls. *)
Definition reader_events (lg : list Entry) : list Event :=
  flat_map published (by_task TReader lg).

(** The events that [channel.go] sends on [eventsOut] are the reader's
    events with the [ChannelClose] of [run] put in somewhere; nothing of the
    reader follows it when the reader had finished before the [select]. *)
Definition events_ok (s : State) : Prop :=
  exists r1 r2,
    reader_events (log s) = r1 ++ r2 /\
    own_events (log s) =
      r1 ++ (if close_published (pc s) then [EventChannelClose ch] else [])
         ++ r2 /\
    (close_published (pc s) = false -> r2 = []) /\
    (path_of (pc s) = Some PathReaderDone -> r2 = []).

(** *** A schedule that lets [run] return *)

(** The label that brings the channel closer to the return of [run]: [run]
    moves whenever it can; the hub gives the signal when [run] waits for it;
    a goroutine [run] waits for moves towards its end, the writer by seeing
    the closed queue, the reader by a [Read] that fails with [e0]. *)
Definition next_label (e0 : error) (s : State) : Label :=
  match pc s with
  | RunSelect =>
      if terminate s then LSelect PathTerminate else LTerminate
  | A_AwaitTerminate => if terminate s then LRun else LTerminate
  | A_JoinWriter | B_JoinWriter =>
      match wpc s with
      | WRange => LTake None
      | WWriteMessage _ | WWriteFrame _ => LWrite None
      | WReturn => LWriter
      | WNotStarted | WDone => LRun
      end
  | B_JoinReader =>
      match rpc s with
      | RRead => LRead (ReadError e0)
      | RNotStarted | RDone => LRun
      | _ => LReader
      end
  | _ => LRun
  end.

(** A bound on the number of such steps still needed. *)
Definition remaining (s : State) : nat :=
  match pc s with
  | RunGoReader => 10 | RunGoWriter => 9 | RunSelect => 8
  | A_PublishClose => 7 | A_Report => 6 | A_AwaitTerminate => 5
  | A_CloseWritec => 4 | A_JoinWriter => 3 | A_CloseRwc => 2
  | B_PublishClose => 6 | B_CloseWritec => 5 | B_JoinWriter => 4
  | B_CloseRwc => 3 | B_JoinReader => 2
  | RunDefer _ => 1 | RunReturned _ => 0
  end +
  match wpc s with
  | WNotStarted => 4 | WWriteMessage _ | WWriteFrame _ => 3
  | WRange => 2 | WReturn => 1 | WDone => 0
  end +
  match rpc s with
  | RNotStarted => 5 | ROnEventFrame _ _ => 4
  | RPublishOpen | RPublishParseError _ | RPublishFrame _ => 3
  | RRead => 2 | RReturn => 1 | RDone => 0
  end +
  (if terminate s then 0 else 1).

(** What [run] can rely on where it waits. *)
Definition waits_ok (s : State) : Prop :=
  (rpc s = RNotStarted -> pc s = RunGoReader) /\
  (wpc s = WNotStarted -> pc s = RunGoReader \/ pc s = RunGoWriter) /\
  (pc s = A_JoinWriter \/ pc s = B_JoinWriter -> writec_closed s = true) /\
  ((exists p, pc s = RunReturned p) -> done s = true).

End Invariants.

(** ** What the users of a channel observe *)

(** What the writer hands to the codec. *)
Inductive Written `{Collaborators} : Type :=
| WrittenMessage (m : Message)
| WrittenFrame (f : Frame).

Section Observations.
Context `{Collaborators}.
Variable ch : Channel.

(** The results of the [Read]s in a log of the reader, in order. *)
Definition reads_of (rl : list Action) : list ReadResult :=
  flat_map (fun a => match a with ARead r => [r] | _ => [] end) rl.

(** The event that lines 70-85 send for a result of [Read]: none for an
    error that is not a [ParserError]. *)
Definition event_of_read (r : ReadResult) : list Event :=
  match r with
  | ReadFrame f => [EventFrame f ch]
  | ReadError e => if isParserError e then [EventParseError e ch] else []
  end.

(** The event the reader has read the cause of but not sent yet. *)
Definition owed_event (r : ReaderPc) : list Event :=
  match r with
  | RPublishParseError e => [EventParseError e ch]
  | ROnEventFrame _ f | RPublishFrame f => [EventFrame f ch]
  | _ => []
  end.

(** [ChannelOpen], once the reader has sent it. *)
Definition opened (r : ReaderPc) : list Event :=
  match r with
  | RNotStarted | RPublishOpen => []
  | _ => [EventChannelOpen ch]
  end.

(** The items received from [writec] in a log of the writer, in order. *)
Definition takes_of (wl : list Action) : list Any :=
  flat_map (fun a => match a with ATake what => [what] | _ => [] end) wl.

(** The calls of [WriteMessage] and [WriteFrame] in a log of the writer. *)
Definition writes_of (wl : list Action) : list Written :=
  flat_map (fun a => match a with
                     | AWriteMessage m _ => [WrittenMessage m]
                     | AWriteFrame f _ => [WrittenFrame f]
                     | _ => []
                     end) wl.

(** The write that the type switch of lines 94-100 makes for an item. *)
Definition must_write (what : Any) : list Written :=
  match asMessage what with
  | Some m => [WrittenMessage m]
  | None =>
      match asFrame what with
      | Some f => [WrittenFrame f]
      | None => []
      end
  end.

(** The write the writer has taken the item of but not made yet. *)
Definition owed_write (w : WriterPc) : list Written :=
  match w with
  | WWriteMessage m => [WrittenMessage m]
  | WWriteFrame f => [WrittenFrame f]
  | _ => []
  end.

Definition is_report (a : Action) : bool :=
  match a with AReport => true | _ => false end.

(** How often [run] has sent the channel on [channelClose] when it stands
    at [p]. *)
Definition reports_of (p : RunPc) : nat :=
  match p with
  | A_AwaitTerminate | A_CloseWritec | A_JoinWriter | A_CloseRwc
  | RunDefer PathReaderDone | RunReturned PathReaderDone => 1
  | _ => 0
  end.

(** [run] has closed [writec] when it stands at [p]. *)
Definition writec_closed_at (p : RunPc) : bool :=
  match p with
  | A_JoinWriter | A_CloseRwc | B_JoinWriter | B_CloseRwc | B_JoinReader
  | RunDefer _ | RunReturned _ => true
  | _ => false
  end.

(** [run] can stand at [p] only after the termination signal. *)
Definition terminate_needed (p : RunPc) : bool :=
  match p with
  | RunGoReader | RunGoWriter | RunSelect
  | A_PublishClose | A_Report | A_AwaitTerminate => false
  | _ => true
  end.

End Observations.

(** * The dialect generator: data and string functions *)

(** A Go result [(T, error)]: the value, or the message of the error. *)
Inductive result (A : Type) : Type :=
| Ok (a : A)
| Err (msg : string).

Arguments Err {A} msg.

(** [DialectField], [DefinitionMessage], [DefinitionEnumValue],
    [DefinitionEnum] and [Definition] (here [DialectDefinition]) are what
    [definitionDecode] yields; their declarations are in another file, and
    they are given here the fields the generator reads. *)
Record DialectField : Type := {
  Field_Name : string;
  Field_Type : string;
  Field_Extension : bool
}.

Record DefinitionMessage : Type := {
  Msg_Name : string;
  Msg_Id : Z;
  Msg_Fields : list DialectField
}.

Record DefinitionEnumValue : Type := {
  Value_Name : string;
  Value : string
}.

Record DefinitionEnum : Type := {
  Enum_Name : string;
  Values : list DefinitionEnumValue
}.

Record DialectDefinition : Type := {
  Def_Version : string;
  Def_Includes : list string;
  Def_Enums : list DefinitionEnum;
  Def_Messages : list DefinitionMessage
}.

Record outField : Type := { Line : string }.

Record outMessage : Type := {
  outMessage_Name : string;
  Id : Z;
  Fields : list outField
}.

Record outDefinition : Type := {
  outDefinition_Name : string;
  Messages : list outMessage;
  enums : list DefinitionEnum
}.

Record outEnum : Type := {
  outEnum_Name : string;
  outEnum_Values : list DefinitionEnumValue
}.

Section Strings.
Local Open Scope string_scope.

(** The double quote, as a string. *)
Definition dquote : string := String "034"%char "".

Definition is_digit (c : ascii) : bool :=
  ((48 <=? nat_of_ascii c) && (nat_of_ascii c <=? 57))%nat.

Definition is_upper (c : ascii) : bool :=
  ((65 <=? nat_of_ascii c) && (nat_of_ascii c <=? 90))%nat.

(** [reMsgName], the expression [^[A-Z0-9_]+$]: a name matches when it is
    not empty and made of capital letters, digits and underscores. *)
Definition reMsgName (s : string) : bool :=
  match list_ascii_of_string s with
  | [] => false
  | cs => forallb (fun c => is_upper c || is_digit c || Ascii.eqb c "_") cs
  end.

(** The longest prefix of [l] whose elements satisfy [p], and the rest. *)
Fixpoint span (A : Type) (p : A -> bool) (l : list A) : list A * list A :=
  match l with
  | [] => ([], [])
  | a :: l' =>
      if p a then let (yes, rest) := span p l' in (a :: yes, rest)
      else ([], l)
  end.

(** The dot of an expression matches everything but a line feed. *)
Definition no_line_feed (c : ascii) : bool := negb (Ascii.eqb c "010").

(** [reTypeIsArray], the expression [^(.+?)\[([0-9]+)\]$], with its two
    groups: the text is read from its end, a closing bracket, digits, an
    opening bracket, and before it at least one character that the dot
    matches. *)
Definition reTypeIsArray (s : string) : option (string * string) :=
  match rev (list_ascii_of_string s) with
  | c :: r =>
      if Ascii.eqb c "]" then
        match span is_digit r with
        | (d :: ds, o :: p :: ps) =>
            if Ascii.eqb o "[" && forallb no_line_feed (p :: ps)
            then Some (string_of_list_ascii (rev (p :: ps)),
                       string_of_list_ascii (rev (d :: ds)))
            else None
        | _ => None
        end
      else None
  | [] => None
  end.

(** Every character of [s] satisfies [f]. *)
Definition all_chars (f : ascii -> bool) (s : string) : bool :=
  forallb f (list_ascii_of_string s).

(** [sort.Strings]: the strings in increasing order. *)
Fixpoint insert_string (x : string) (l : list string) : list string :=
  match l with
  | [] => [x]
  | y :: l' => if String.leb x y then x :: l else y :: insert_string x l'
  end.

Fixpoint sort_Strings (l : list string) : list string :=
  match l with
  | [] => []
  | x :: l' => insert_string x (sort_Strings l')
  end.

(** A Go map from strings to strings with the operations used on [tags]:
    assignment to a key, reading the number of keys. *)
Fixpoint map_set (k v : string) (m : list (string * string))
    : list (string * string) :=
  match m with
  | [] => [(k, v)]
  | (k', v') :: m' =>
      if String.eqb k' k then (k, v) :: m' else (k', v') :: map_set k v m'
  end.

(** [fmt.Sprintf] with the format of line 424: key, colon, quoted value. *)
Definition fmt_tag (kv : string * string) : string :=
  fst kv ++ ":" ++ dquote ++ snd kv ++ dquote.

End Strings.

(** * The dialect generator: fields and messages *)

Section Fields.
Local Open Scope string_scope.

(** The name and type conversions of package [gomavlib], which are in
    another file. *)
Variable DialectMsgDefToGo : string -> string.
Variable DialectFieldDefToGo : string -> string.
Variable DialectFieldGoToDef : string -> string.
Variable DialectTypeDefToGo : string -> string.

(** The order in which [range] visits the keys of a map: some order, not
    the same from one run to the next. *)
Variable range_map : list (string * string) -> list (string * string).

Definition fieldProcess (field : DialectField) : result outField :=
  let tags : list (string * string) := [] in
  let newname := DialectFieldDefToGo (Field_Name field) in
  (* name conversion is not univoque: add tag *)
  let tags :=
    if negb (DialectFieldGoToDef newname =? Field_Name field)
    then map_set "mavname" (Field_Name field) tags else tags in
  let line := newname in
  let typ := Field_Type field in
  let arrayLen := "" in
  let typ := if typ =? "uint8_t_mavlink_version" then "uint8_t" else typ in
  (* string or array *)
  let '(tags, typ, arrayLen) :=
    match reTypeIsArray typ with
    | Some (m1, m2) =>
        if m1 =? "char"
        then (map_set "mavlen" m2 tags, "char", arrayLen)
        else (tags, m1, m2)
    | None => (tags, typ, arrayLen)
    end in
  (* extension *)
  let tags :=
    if Field_Extension field then map_set "mavext" "true" tags else tags in
  let typ := DialectTypeDefToGo typ in
  if typ =? "" then Err ("unknown type: " ++ typ)
  else
    let line := line ++ " " in
    let line :=
      if negb (arrayLen =? "") then line ++ "[" ++ arrayLen ++ "]"
      else line in
    let line := line ++ typ in
    let line :=
      if (0 <? List.length tags)%nat
      then line ++ " `" ++
           String.concat " " (sort_Strings (map fmt_tag (range_map tags))) ++
           "`"
      else line in
    Ok {| Line := line |}.

(** The loop of lines 361-367: the fields in order, up to the first that
    fails. *)
Fixpoint fields_loop (fs : list DialectField) (acc : list outField)
    : result (list outField) :=
  match fs with
  | [] => Ok acc
  | f :: fs' =>
      match fieldProcess f with
      | Err e => Err e
      | Ok outF => fields_loop fs' (acc ++ [outF])%list
      end
  end.

Definition messageProcess (msg : DefinitionMessage) : result outMessage :=
  if negb (reMsgName (Msg_Name msg))
  then Err ("unsupported message name: " ++ Msg_Name msg)
  else
    match fields_loop (Msg_Fields msg) [] with
    | Err e => Err e
    | Ok fs =>
        Ok {| outMessage_Name := DialectMsgDefToGo (Msg_Name msg);
              Id := Msg_Id msg;
              Fields := fs |}
    end.

(** *** The parts of the line of a field *)

(** The type of a field as lines 388-390 leave it. *)
Definition normType (field : DialectField) : string :=
  if Field_Type field =? "uint8_t_mavlink_version" then "uint8_t"
  else Field_Type field.

(** The type handed to [DialectTypeDefToGo]: for an array or a string the
    type of its elements. *)
Definition elementType (field : DialectField) : string :=
  match reTypeIsArray (normType field) with
  | Some (m1, _) => m1
  | None => normType field
  end.

(** The length of an array, in brackets; nothing for a string or a scalar. *)
Definition arrayPrefix (field : DialectField) : string :=
  match reTypeIsArray (normType field) with
  | Some (m1, m2) => if m1 =? "char" then "" else "[" ++ m2 ++ "]"
  | None => ""
  end.

(** The tags of a field, written in the order [mavext], [mavlen],
    [mavname]. *)
Definition tagsInOrder (field : DialectField) : list string :=
  ((if Field_Extension field then [fmt_tag ("mavext", "true")] else []) ++
   match reTypeIsArray (normType field) with
   | Some (m1, m2) => if m1 =? "char" then [fmt_tag ("mavlen", m2)] else []
   | None => []
   end ++
   (if DialectFieldGoToDef (DialectFieldDefToGo (Field_Name field))
       =? Field_Name field
    then [] else [fmt_tag ("mavname", Field_Name field)]))%list.

Definition tagsText (field : DialectField) : string :=
  match tagsInOrder field with
  | [] => ""
  | ts => " `" ++ String.concat " " ts ++ "`"
  end.

End Fields.

(** ** A concrete setting to run the definitions in *)

Inductive DemoAny : Type :=
| DemoMessage (m : nat)
| DemoFrame (f : nat)
| DemoOther (s : string).

(** Errors are a flag (is it a [ParserError]?) and a text. *)
#[local] Instance demo : Collaborators := {|
  Endpoint := string;
  ReadWriteCloser := nat;
  Frame := nat;
  Message := nat;
  error := bool * string;
  Dialect := unit;
  Key := unit;
  Version := nat;
  Parser := nat;
  StreamRequest := unit;
  Any := DemoAny;
  isParserError := fst;
  asMessage := fun a => match a with DemoMessage m => Some m | _ => None end;
  asFrame := fun a => match a with DemoFrame f => Some f | _ => None end
|}.

Definition demo_node (hook : option unit) : Node :=
  {| conf := {| conf_Dialect := tt; conf_InKey := tt;
                conf_OutSystemId := x0a; conf_OutVersion := 2;
                conf_OutComponentId := x01; conf_OutKey := tt |};
     nodeStreamRequest := hook |}.

Definition demo_channel (hook : option unit) : Channel :=
  {| ch_Endpoint := "tcp"%string; label := "tcp:1"%string; rwc := 3;
     n := demo_node hook; parser := 0 |}.

Definition bad : error := (true, "checksum"%string).
Definition eof : error := (false, "EOF"%string).

(** The reader sees [bad, bad, good1, good2] and then the end of the stream;
    the hub acknowledges; one message is written meanwhile. *)
Definition run_reader_first : list Label :=
  [LRun; LRun; LReader;
   LRead (ReadError bad); LReader; LRead (ReadError bad); LReader;
   LTake (Some (DemoMessage 5)); LWrite (Some eof);
   LRead (ReadFrame 1); LReader; LRead (ReadFrame 2); LReader;
   LTake (Some (DemoOther "x"));
   LRead (ReadError eof); LReader;
   LSelect PathReaderDone; LRun; LRun; LTerminate; LRun; LRun;
   LTake None; LWriter; LRun; LRun; LRun].

(** Termination is requested while the reader waits in [Read]; a frame still
    arrives before the stream is closed. *)
Definition run_terminate_first : list Label :=
  [LRun; LRun; LReader; LTerminate; LSelect PathTerminate; LRun;
   LRead (ReadFrame 7); LReader; LReader;
   LRun; LTake None; LWriter; LRun; LRun;
   LRead (ReadError eof); LReader; LRun; LRun].

(** The node has a stream-request hook, and the hook sends a stream request
    while it is called with the first frame; the stream then ends. *)
Definition run_with_hook : list Label :=
  [LRun; LRun; LReader;
   LRead (ReadFrame 1);
   LHook (EventStreamRequested (demo_channel (Some tt)) x01 x01);
   LReader; LReader;
   LRead (ReadFrame 2); LReader; LReader;
   LRead (ReadError eof); LReader;
   LSelect PathReaderDone; LRun; LRun; LTerminate; LRun; LRun;
   LTake None; LWriter; LRun; LRun; LRun].

(** Termination is requested before the reader goroutine got to run. *)
Definition run_terminate_at_once : list Label :=
  [LRun; LRun; LTerminate; LSelect PathTerminate; LRun; LReader;
   LRun; LTake None; LWriter; LRun; LRun;
   LRead (ReadError eof); LReader; LRun; LRun].

(** A codec that accepts protocol versions 1 and 2 only; its parser is
    identified by the link identifier it was given. *)
Definition demo_NewParser (c : ParserConf) : Parser + error :=
  match OutVersion c with
  | 1 | 2 => inl (Byte.to_nat (OutSignatureLinkId c))
  | _ => inr (false, "invalid version"%string)
  end.

Definition demo_world : World :=
  {| entropy := fun k => if Nat.even k then x2a else x07; drawn := 0;
     stream_ops := []; goroutines := 0 |}.

(** A node whose configuration the codec rejects. *)
Definition demo_node_v9 : Node :=
  {| conf := {| conf_Dialect := tt; conf_InKey := tt;
                conf_OutSystemId := x0a; conf_OutVersion := 9;
                conf_OutComponentId := x01; conf_OutKey := tt |};
     nodeStreamRequest := None |}.

(** The state an execution of the demonstration channel ends in. *)
Definition final_state (hook : option unit) (ls : list Label) : State :=
  match run (demo_channel hook) ls with
  | Some s => s
  | None => init
  end.

Definition st_reader_first : State :=
  Eval vm_compute in final_state None run_reader_first.

Definition st_terminate_first : State :=
  Eval vm_compute in final_state (Some tt) run_terminate_first.

Definition st_with_hook : State :=
  Eval vm_compute in final_state (Some tt) run_with_hook.

(** Both goroutines started, nothing else done yet. *)
Definition st_started : State :=
  Eval vm_compute in final_state None [LRun; LRun].

(** Conversions for a few names and types, to run the generator on. *)
Definition demo_FieldDefToGo (s : string) : string :=
  if (s =? "param_id")%string then "ParamId"%string
  else if (s =? "target_system")%string then "TargetSystem"%string
  else s.

Definition demo_FieldGoToDef (s : string) : string :=
  if (s =? "ParamId")%string then "param_id"%string
  else if (s =? "TargetSystem")%string then "target_system"%string
  else s.

Definition demo_TypeDefToGo (s : string) : string :=
  if (s =? "char")%string then "string"%string
  else if (s =? "uint8_t")%string then "uint8"%string
  else if (s =? "float")%string then "float32"%string
  else ""%string.

Definition demo_MsgDefToGo (s : string) : string :=
  if (s =? "PARAM_SET")%string then "ParamSet"%string else s.

(** A string field whose name does not survive the conversion there and
    back, declared as an extension: it gets all three tags. *)
Definition demo_field : DialectField :=
  {| Field_Name := "ParamId"; Field_Type := "char[16]";
     Field_Extension := true |}.

Definition demo_array_field : DialectField :=
  {| Field_Name := "param_id"; Field_Type := "float[4]";
     Field_Extension := false |}.

Definition demo_unknown_field : DialectField :=
  {| Field_Name := "target_system"; Field_Type := "int128_t";
     Field_Extension := false |}.

(** * Properties *)

(** ** Lists that grow at the end *)

Section Snoc.
Variable A : Type.

Lemma snoc_split (pre post l : list A) (x e : A) :
  pre ++ x :: post = l ++ [e] ->
  (post = [] /\ pre = l /\ x = e) \/
  (exists post', post = post' ++ [e] /\ l = pre ++ x :: post').
Proof.
  destruct post as [|p post'] using rev_ind; intros E.
  - left. apply (app_inj_tail pre l x e) in E. tauto.
  - right. exists post'. clear IHpost'.
    change (pre ++ x :: post' ++ [p]) with (pre ++ (x :: post') ++ [p]) in E.
    rewrite app_assoc in E. apply app_inj_tail in E.
    destruct E as [E1 E2]. subst. auto.
Qed.

Lemma preceded_by_nil (x y : A) : preceded_by x y [].
Proof. intros [|a pre] post E; discriminate E. Qed.

Lemma preceded_by_snoc (x y e : A) (l : list A) :
  preceded_by x y l -> (e = y -> In x l) -> preceded_by x y (l ++ [e]).
Proof.
  intros Hl He pre post E. symmetry in E. apply snoc_split in E.
  destruct E as [(_ & -> & <-) | (post' & _ & ->)]; [auto | eauto].
Qed.

Lemma firstn_incl (k : nat) (l : list A) (x : A) :
  In x (firstn k l) -> In x l.
Proof.
  intros Hin. rewrite <- (firstn_skipn k l). apply in_or_app. now left.
Qed.

Lemma snoc_cons (pre rest : list A) (a : A) :
  pre ++ a :: rest = (pre ++ [a]) ++ rest.
Proof. now rewrite <- app_assoc. Qed.

Lemma last_two (l l' : list A) (a b : A) :
  l ++ [a] = l' ++ [b] -> l = l' /\ a = b.
Proof. apply app_inj_tail. Qed.

End Snoc.

Section LogFacts.
Context `{Collaborators}.

Lemma by_task_snoc (t t' : Task) (a : Action) (lg : list Entry) :
  by_task t (lg ++ [(t', a)]) =
  by_task t lg ++ (if Task_eqb t' t then [a] else []).
Proof.
  unfold by_task. rewrite filter_app, map_app. simpl.
  destruct (Task_eqb t' t); reflexivity.
Qed.

Lemma by_task_app (t : Task) (l1 l2 : list Entry) :
  by_task t (l1 ++ l2) = by_task t l1 ++ by_task t l2.
Proof. unfold by_task. now rewrite filter_app, map_app. Qed.

Lemma by_task_In (t : Task) (a : Action) (lg : list Entry) :
  In a (by_task t lg) <-> In (t, a) lg.
Proof.
  unfold by_task. rewrite in_map_iff. split.
  - intros ([t' a'] & E & Hin). simpl in E. subst a'.
    apply filter_In in Hin. destruct Hin as [Hin Ht]. simpl in Ht.
    destruct t', t; try discriminate Ht; exact Hin.
  - intros Hin. exists (t, a). split; [reflexivity|].
    apply filter_In. split; [exact Hin|]. destruct t; reflexivity.
Qed.

Lemma events_snoc (t : Task) (a : Action) (lg : list Entry) :
  events (lg ++ [(t, a)]) = events lg ++ published a.
Proof. unfold events. rewrite flat_map_app. simpl. now rewrite app_nil_r. Qed.


Lemma own_events_snoc (t : Task) (a : Action) (lg : list Entry) :
  own_events (lg ++ [(t, a)]) =
  own_events lg ++ (if Task_eqb t THook then [] else published a).
Proof.
  unfold own_events, without_hook. rewrite filter_app. simpl.
  destruct (Task_eqb t THook); simpl.
  - now rewrite !app_nil_r.
  - apply events_snoc.
Qed.

Lemma count_snoc (p : Action -> bool) (t : Task) (a : Action)
    (lg : list Entry) :
  count p (lg ++ [(t, a)]) = count p lg + (if p a then 1 else 0).
Proof.
  unfold count. rewrite filter_app, length_app. simpl.
  destruct (p a); reflexivity.
Qed.

End LogFacts.

(** ** Executions and invariants *)

Section Executions.
Context `{Collaborators}.
Variable ch : Channel.

Lemma exec_app (l1 l2 : list Label) (s : State) :
  exec ch (l1 ++ l2) s =
  match exec ch l1 s with
  | Some s' => exec ch l2 s'
  | None => None
  end.
Proof.
  revert s. induction l1 as [|l l1 IH]; intros s; simpl; [reflexivity|].
  destruct (step ch l s); [apply IH | reflexivity].
Qed.

Lemma Reachable_init : Reachable ch init.
Proof. exists []. reflexivity. Qed.

Lemma Reachable_step (l : Label) (s s' : State) :
  Reachable ch s -> step ch l s = Some s' -> Reachable ch s'.
Proof.
  intros [ls E] Hs. exists (ls ++ [l]). unfold run in *.
  rewrite exec_app, E. simpl. now rewrite Hs.
Qed.

(** Induction over executions: a property of the initial state that every
    step from a reachable state preserves holds in all reachable states. *)
Lemma Reachable_ind (P : State -> Prop) :
  P init ->
  (forall l s s', Reachable ch s -> P s -> step ch l s = Some s' -> P s') ->
  forall s, Reachable ch s -> P s.
Proof.
  intros H0 Hstep s [ls E]. unfold run in E. revert s E.
  induction ls as [|l ls IH] using rev_ind; intros s E.
  - simpl in E. now inversion E.
  - rewrite exec_app in E. destruct (exec ch ls init) as [s0|] eqn:E0;
      [|discriminate E].
    simpl in E. destruct (step ch l s0) as [s1|] eqn:E1; [|discriminate E].
    inversion E; subst s1. apply (Hstep l s0 s); [now exists ls| |exact E1].
    now apply IH.
Qed.

End Executions.

(** Induction over the reachable states, for a goal of the form
    [forall s, Reachable ch s -> _]. *)
Ltac reach_induction :=
  match goal with
  | |- forall s, Reachable ?c s -> @?P s => apply (@Reachable_ind _ c P)
  end.

(** Case analysis of one step: which statement ran, and the state after it. *)
Ltac step_cases Hs :=
  unfold step, run_step, run_select, reader_step, reader_read, hook_publish,
    writer_take, writer_write, writer_step, hub_terminate in Hs;
  repeat match type of Hs with
         | context [match ?x with _ => _ end] => destruct x eqn:?
         end;
  try discriminate Hs;
  inversion Hs; subst; clear Hs.

(** ** What [run] itself has done, from where it stands *)

Section RunTrace.
Context `{Collaborators}.
Variable ch : Channel.

Lemma run_trace_inv (s : State) :
  Reachable ch s -> by_task TRun (log s) = run_trace ch (pc s).
Proof.
  revert s. reach_induction; [reflexivity|].
  intros l s s' R IH Hs.
  step_cases Hs; simpl; rewrite ?by_task_snoc, IH; simpl;
    rewrite ?app_nil_r;
    try match goal with E : pc _ = _ |- _ => rewrite E end;
    try match goal with p : Path |- _ => destruct p end;
    reflexivity.
Qed.

End RunTrace.

(** ** Flags, performers and blocking operations *)

Section Coordination.
Context `{Collaborators}.
Variable ch : Channel.

Lemma performer_inv (s : State) :
  Reachable ch s -> forall t a, In (t, a) (log s) -> performer ch t a.
Proof.
  revert s. reach_induction; [intros t a []|].
  intros l s s' R IH Hs t a.
  step_cases Hs; simpl; try apply IH;
    (rewrite in_app_iff; intros [Hin | [E | []]]; [now apply IH|];
     inversion E; subst; simpl; unfold data_event; eauto 6).
Qed.

Lemma flags_inv (s : State) : Reachable ch s -> flags_ok s.
Proof.
  revert s. reach_induction.
  - repeat split; simpl; discriminate.
  - intros l s s' R (I1 & I2 & I3 & I4 & I5) Hs.
    step_cases Hs; unfold flags_ok; simpl;
      try match goal with E : pc s = _ |- _ => rewrite E in *; simpl in * end;
      repeat split; intros; rewrite ?in_app_iff; simpl;
      try solve [ auto | discriminate | eauto
                | destruct I4 as [? ?]; [assumption | discriminate]
                | match goal with p : Path |- _ => destruct p end;
                  simpl in *; auto; discriminate
                | assert (rpc s = RDone) by auto; congruence
                | match goal with
                  | I : ?a -> _ = RDone, E : ?a |- _ =>
                      specialize (I E); discriminate I
                  end
                | match goal with
                  | E : writer_switch ?a = WDone |- _ =>
                      unfold writer_switch in E;
                      destruct (asMessage a); [discriminate E|];
                      destruct (asFrame a); discriminate E
                  end ].
Qed.

Lemma blocking_inv (s : State) : Reachable ch s -> blocking_ok (log s).
Proof.
  revert s. reach_induction.
  - repeat split; apply preceded_by_nil.
  - intros l s s' R (I1 & I2 & I3 & I4 & I5) Hs.
    destruct (flags_inv R) as (F1 & F2 & F3 & _ & _).
    step_cases Hs; simpl; try (repeat split; assumption);
      (repeat split; apply preceded_by_snoc; try assumption;
       intros E; inversion E; subst; auto).
Qed.

Lemma counts_inv (s : State) :
  Reachable ch s ->
  count is_select (log s) = selects_of (pc s) /\
  count is_close_rwc (log s) = closes_of (pc s).
Proof.
  revert s. reach_induction; [split; reflexivity|].
  intros l s s' R [I1 I2] Hs.
  step_cases Hs; simpl; rewrite ?count_snoc, I1, I2; simpl;
    try match goal with E : pc s = _ |- _ => rewrite E end;
    simpl; split; try reflexivity; try lia;
    try match goal with p : Path |- _ => destruct p end; reflexivity.
Qed.

(** The stream is closed inside a [select] case only. *)
Lemma close_after_select (s : State) :
  Reachable ch s ->
  forall pre post, log s = pre ++ (TRun, ACloseRwc) :: post ->
  exists p, In (TRun, ASelect p) pre.
Proof.
  revert s. reach_induction.
  - intros [|e pre] post E; discriminate E.
  - intros l s s' R IH Hs pre post E.
    pose proof (run_trace_inv R) as T.
    step_cases Hs; simpl in E; try (eapply IH; eassumption);
      (symmetry in E; apply snoc_split in E;
       destruct E as [(_ & -> & E) | (post' & _ & E)];
       [|eapply IH; eassumption]);
      try discriminate E.
    + exists PathReaderDone. apply by_task_In. rewrite T. simpl. auto.
    + exists PathTerminate. apply by_task_In. rewrite T. simpl. auto.
Qed.

End Coordination.

(** ** Consecutive operations of one goroutine *)

Section Adjacent.
Variable A : Type.
Variable R : A -> A -> Prop.

Lemma adjacent_nil : adjacent R [].
Proof. intros [|x pre] a b post E; discriminate E. Qed.

Lemma adjacent_snoc (l : list A) (b : A) :
  adjacent R l -> (forall pre a, l = pre ++ [a] -> R a b) ->
  adjacent R (l ++ [b]).
Proof.
  intros Hl Hb pre a b' post E. symmetry in E. apply snoc_split in E.
  destruct E as [(E & _) | (post' & E & ->)]; [discriminate E|].
  destruct post' as [|c post']; simpl in E; inversion E; subst.
  - eapply Hb. reflexivity.
  - eapply Hl. reflexivity.
Qed.

(** What follows an occurrence of [a]: nothing yet, or some [b] with
    [R a b]. *)
Lemma adjacent_next (l pre post : list A) (a : A) :
  adjacent R l -> l = pre ++ a :: post ->
  post = [] \/ exists b post', post = b :: post' /\ R a b.
Proof.
  intros Hl E. destruct post as [|b post']; [now left|].
  right. exists b, post'. split; [reflexivity|]. eapply Hl. exact E.
Qed.

(** What precedes an occurrence of [b]: nothing, or some [a] with
    [R a b]. *)
Lemma adjacent_prev (l pre post : list A) (b : A) :
  adjacent R l -> l = pre ++ b :: post ->
  pre = [] \/ exists pre' a, pre = pre' ++ [a] /\ R a b.
Proof.
  intros Hl E. destruct pre as [|x pre0] using rev_ind; [now left|].
  right. exists pre0, x. split; [reflexivity|]. eapply (Hl pre0 x b post).
  rewrite E, <- app_assoc. reflexivity.
Qed.

End Adjacent.

Section Goroutines.
Context `{Collaborators}.
Variable ch : Channel.

(** A goroutine that [run] has not started yet has done nothing. *)
Lemma not_started_inv (s : State) :
  Reachable ch s ->
  (rpc s = RNotStarted -> by_task TReader (log s) = []) /\
  (wpc s = WNotStarted -> by_task TWriter (log s) = []) /\
  (pc s = RunGoReader -> rpc s = RNotStarted) /\
  (pc s = RunGoReader \/ pc s = RunGoWriter -> wpc s = WNotStarted).
Proof.
  revert s. reach_induction.
  - repeat split; reflexivity.
  - intros l s s' R (I1 & I2 & I3 & I4) Hs.
    step_cases Hs; simpl; rewrite ?by_task_snoc; simpl;
      rewrite ?app_nil_r;
      try match goal with E : pc s = _ |- _ => rewrite E in * end;
      repeat split; intros; auto; try discriminate; try congruence;
      try (intuition discriminate);
      try match goal with
          | E : writer_switch ?a = WNotStarted |- _ =>
              unfold writer_switch in E;
              destruct (asMessage a); [discriminate E|];
              destruct (asFrame a); [discriminate E|]; congruence
          end.
Qed.

(** *** The reader *)

Ltac last_is E :=
  apply last_two in E; destruct E as [_ E]; subst.

Lemma reader_inv (s : State) : Reachable ch s -> reader_ok ch s.
Proof.
  revert s. reach_induction.
  - split; [apply adjacent_nil|]. split; [reflexivity | now left].
  - intros l s s' R (I1 & I2 & I3) Hs.
    destruct (not_started_inv R) as (N1 & _ & N3 & _).
    unfold reader_ok.
    destruct l; step_cases Hs; simpl; rewrite ?by_task_snoc; simpl;
      rewrite ?app_nil_r;
      try match goal with E : rpc s = _ |- _ => rewrite ?E end;
      try (split; [|split]; assumption); simpl in I2.
    + (* go reader *)
      rewrite (N1 (N3 eq_refl)) in *. auto.
    + (* publish Open *)
      rewrite I2. simpl. split; [|split].
      * intros [|x [|y pre]] a b post E; discriminate E.
      * exists [], (EventChannelOpen ch). reflexivity.
      * right. now exists [].
    + (* publish ParseError *)
      destruct I2 as (Ep & pre & E). split; [|split].
      * apply adjacent_snoc; [assumption|]. intros pre0 a E0.
        rewrite E in E0. last_is E0. now constructor.
      * eauto.
      * destruct I3 as [I3 | [rest I3]]; rewrite I3; simpl; eauto.
        rewrite I3 in E. destruct pre; discriminate E.
    + (* the hook *)
      destruct I2 as (Ep & pre & E). split; [|split].
      * apply adjacent_snoc; [assumption|]. intros pre0 a E0.
        rewrite E in E0. last_is E0. now constructor.
      * exists (by_task TReader (log s)). right. eauto.
      * destruct I3 as [I3 | [rest I3]]; rewrite I3; simpl; eauto.
        rewrite I3 in E. destruct pre; discriminate E.
    + (* publish Frame *)
      destruct I2 as (pre & [(Ep & E) | (sr & Ep & E)]);
        (split; [|split];
         [ apply adjacent_snoc; [assumption|]; intros pre0 a E0;
           rewrite E in E0; last_is E0; now constructor
         | eauto
         | destruct I3 as [I3 | [rest I3]]; rewrite I3; simpl; eauto;
           rewrite I3 in E; destruct pre; discriminate E ]).
    + (* close(readerDone) *)
      destruct I2 as (pre & e & Ep & E). split; [|split].
      * apply adjacent_snoc; [assumption|]. intros pre0 a E0.
        rewrite E in E0. last_is E0. now constructor.
      * eauto.
      * destruct I3 as [I3 | [rest I3]]; rewrite I3; simpl; eauto.
        rewrite I3 in E. destruct pre; discriminate E.
    + (* Read: frame, hook set *)
      destruct I2 as (pre & ev & E). split; [|split].
      * apply adjacent_snoc; [assumption|]. intros pre0 a E0.
        rewrite E in E0. last_is E0. constructor.
      * eauto.
      * destruct I3 as [I3 | [rest I3]]; rewrite I3; simpl; eauto.
        rewrite I3 in E. destruct pre; discriminate E.
    + (* Read: frame, no hook *)
      destruct I2 as (pre & ev & E). split; [|split].
      * apply adjacent_snoc; [assumption|]. intros pre0 a E0.
        rewrite E in E0. last_is E0. constructor.
      * exists (by_task TReader (log s)). left. auto.
      * destruct I3 as [I3 | [rest I3]]; rewrite I3; simpl; eauto.
        rewrite I3 in E. destruct pre; discriminate E.
    + (* Read: parse error *)
      destruct I2 as (pre & ev & E). split; [|split].
      * apply adjacent_snoc; [assumption|]. intros pre0 a E0.
        rewrite E in E0. last_is E0. constructor.
      * eauto.
      * destruct I3 as [I3 | [rest I3]]; rewrite I3; simpl; eauto.
        rewrite I3 in E. destruct pre; discriminate E.
    + (* Read: fatal *)
      destruct I2 as (pre & ev & E). split; [|split].
      * apply adjacent_snoc; [assumption|]. intros pre0 a E0.
        rewrite E in E0. last_is E0. constructor.
      * eauto.
      * destruct I3 as [I3 | [rest I3]]; rewrite I3; simpl; eauto.
        rewrite I3 in E. destruct pre; discriminate E.
Qed.

End Goroutines.

Section WriterGoroutine.
Context `{Collaborators}.
Variable ch : Channel.

(** *** The writer *)

Lemma back_at_range_succ (a b : Action) :
  back_at_range a -> loop_again b -> writer_succ a b.
Proof.
  intros [(m & res & ->) | [(f & res & ->) | (w & -> & E1 & E2)]] Hb;
    now constructor.
Qed.

Lemma writer_at_switch (wl : list Action) (what : Any) :
  writer_at (wl ++ [ATake what]) (writer_switch what).
Proof.
  unfold writer_switch.
  destruct (asMessage what) as [m|] eqn:Em; simpl; [eauto|].
  destruct (asFrame what) as [f|] eqn:Ef; simpl; [eauto|].
  right. exists wl, (ATake what). split; [reflexivity|].
  right. right. eauto.
Qed.

Lemma writer_inv (s : State) : Reachable ch s -> writer_ok s.
Proof.
  revert s. reach_induction.
  - split; [apply adjacent_nil | reflexivity].
  - intros l s s' R (I1 & I2) Hs.
    destruct (not_started_inv R) as (_ & N2 & _ & N4).
    unfold writer_ok.
    destruct l; step_cases Hs; simpl; rewrite ?by_task_snoc; simpl;
      rewrite ?app_nil_r;
      try match goal with E : wpc s = _ |- _ => rewrite ?E end;
      try (split; assumption); simpl in I2.
    + (* go writer *)
      rewrite (N2 (N4 (or_intror eq_refl))) in *. auto.
    + (* an item is taken *)
      split; [|apply writer_at_switch].
      apply adjacent_snoc; [assumption|]. intros pre0 x E.
      destruct I2 as [I2 | (pre' & a' & I2 & Ha)].
      * rewrite I2 in E. destruct pre0; discriminate E.
      * rewrite I2 in E. apply last_two in E. destruct E as [_ <-].
        apply back_at_range_succ; [assumption|]. left. eauto.
    + (* WriteMessage returns *)
      destruct I2 as (pre & what & E & Em). split.
      * apply adjacent_snoc; [assumption|]. intros pre0 x E0.
        rewrite E in E0. apply last_two in E0. destruct E0 as [_ <-].
        now constructor.
      * right. exists (by_task TWriter (log s)), (AWriteMessage m res).
        split; [reflexivity|]. left. eauto.
    + (* WriteFrame returns *)
      destruct I2 as (pre & what & E & Em & Ef). split.
      * apply adjacent_snoc; [assumption|]. intros pre0 x E0.
        rewrite E in E0. apply last_two in E0. destruct E0 as [_ <-].
        now constructor.
      * right. exists (by_task TWriter (log s)), (AWriteFrame f res).
        split; [reflexivity|]. right. left. eauto.
    + (* close(writerDone) *)
      split; [|eauto].
      apply adjacent_snoc; [assumption|]. intros pre0 x E.
      destruct I2 as [I2 | (pre' & a' & I2 & Ha)].
      * rewrite I2 in E. destruct pre0; discriminate E.
      * rewrite I2 in E. apply last_two in E. destruct E as [_ <-].
        apply back_at_range_succ; [assumption|]. now right.
Qed.

End WriterGoroutine.

(** ** The events of a channel *)

Section Events.
Context `{Collaborators}.
Variable ch : Channel.

Lemma reader_events_snoc (t : Task) (a : Action) (lg : list Entry) :
  reader_events (lg ++ [(t, a)]) =
  reader_events lg ++ (if Task_eqb t TReader then published a else []).
Proof.
  unfold reader_events. rewrite by_task_snoc, flat_map_app.
  destruct (Task_eqb t TReader); simpl; now rewrite ?app_nil_r.
Qed.

Lemma selected_path (s : State) (p : Path) :
  Reachable ch s ->
  (In (TRun, ASelect p) (log s) <-> path_of (pc s) = Some p).
Proof.
  intros R. rewrite <- by_task_In, (run_trace_inv R). unfold run_trace.
  split.
  - intros Hin. apply in_app_or in Hin. destruct Hin as [Hin | Hin].
    + destruct (pc s); simpl in Hin; intuition discriminate.
    + destruct (path_of (pc s)) as [q|]; [|contradiction].
      destruct Hin as [E | Hin]; [congruence|].
      apply firstn_incl in Hin. destruct q; simpl in Hin;
        intuition discriminate.
  - intros ->. apply in_or_app. right. now left.
Qed.

(** Once [run] is past a join, the joined goroutine has finished; the
    stream is closed only after the writer has. *)
Lemma joined_inv (s : State) :
  Reachable ch s ->
  (closes_of (pc s) = 1 \/ pc s = A_CloseRwc \/ pc s = B_CloseRwc ->
   wpc s = WDone) /\
  ((exists p, pc s = RunDefer p \/ pc s = RunReturned p) -> rpc s = RDone).
Proof.
  revert s. reach_induction.
  - split; simpl.
    + intros [E | [E | E]]; discriminate E.
    + intros (p & [E | E]); discriminate E.
  - intros l s s' R (I1 & I2) Hs.
    pose proof (proj2 (proj2 (proj2 (proj2 (flags_inv R))))) as F5.
    step_cases Hs; simpl;
      try match goal with E : pc s = _ |- _ => rewrite E in *; simpl in * end;
      (split;
       [ intros [E | [E | E]]; try discriminate E; auto
       | intros (q & [E | E]); try discriminate E; eauto ]);
      try (exfalso;
           match goal with
           | I : ?a -> _ = WDone |- _ =>
               assert a as X by auto; specialize (I X); discriminate I
           | I : ?a -> _ = RDone |- _ =>
               assert a as X by eauto; specialize (I X); discriminate I
           end).
Qed.

Lemma data_then_close_app (d : list Event) (c : Channel) :
  Forall (data_event ch) d ->
  data_then_close (d ++ [EventChannelClose c]) = true.
Proof.
  induction 1 as [|ev d Hev _ IH]; [reflexivity|].
  destruct Hev as [(f & ->) | (e & ->)]; simpl;
    destruct (d ++ [EventChannelClose c]); assumption.
Qed.

(** The reader sends [Open] first and data events after it. *)
Lemma reader_events_inv (s : State) :
  Reachable ch s -> open_then_data ch (reader_events (log s)).
Proof.
  revert s. reach_induction; [now left|].
  intros l s s' R IH Hs.
  destruct (reader_inv R) as (_ & At & Hd).
  assert (by_task TReader (log s) <> [] ->
          exists d, reader_events (log s) = EventChannelOpen ch :: d /\
                    Forall (data_event ch) d) as Started.
  { intros Hne. destruct IH as [IH | IH]; [|exact IH].
    destruct Hd as [Hd | [rest Hd]]; [contradiction|].
    unfold reader_events in IH. rewrite Hd in IH. discriminate IH. }
  assert (forall pre a, by_task TReader (log s) = pre ++ [a] ->
          by_task TReader (log s) <> []) as Hne
    by (intros pre a -> E; destruct pre; discriminate E).
  step_cases Hs; simpl; rewrite ?reader_events_snoc; simpl;
    rewrite ?app_nil_r; try exact IH; simpl in At; unfold open_then_data.
  - right. unfold reader_events. rewrite At. simpl. eauto.
  - destruct At as (_ & pre & E).
    destruct (Started (Hne _ _ E)) as (d & -> & Hd').
    right. exists (d ++ [EventParseError e ch]). split; [reflexivity|].
    apply Forall_app. split; [assumption|].
    constructor; [|constructor]. right. eauto.
  - destruct At as (pre & [(_ & E) | (sr & _ & E)]);
      destruct (Started (Hne _ _ E)) as (d & -> & Hd');
      right; exists (d ++ [EventFrame f ch]); (split; [reflexivity|]);
      apply Forall_app; (split; [assumption|]);
      (constructor; [|constructor]); left; eauto.
Qed.

Lemma events_inv (s : State) : Reachable ch s -> events_ok ch s.
Proof.
  revert s. reach_induction.
  - exists [], []. repeat split; reflexivity.
  - intros l s s' R (r1 & r2 & E1 & E2 & Hc & Ha) Hs.
    pose proof (proj2 (proj2 (proj2 (proj2 (flags_inv R))))) as F5.
    unfold events_ok.
    destruct l; step_cases Hs; simpl;
      rewrite ?reader_events_snoc, ?own_events_snoc; simpl;
      rewrite ?app_nil_r;
      try match goal with E : pc s = _ |- _ => rewrite E in *; simpl in * end;
      try (rewrite (Hc eq_refl) in *; exists r1, [];
           rewrite ?app_nil_r in *; repeat split; auto; congruence);
      try (exists r1, r2; repeat split; auto; intros; try discriminate;
           match goal with p : Path |- _ => destruct p end;
           auto; discriminate);
      try (destruct (close_published (pc s)) eqn:Ec;
           [ match goal with
             | |- context [?x ++ [?ev]] =>
                 exists r1, (r2 ++ [ev]); rewrite E1, E2, <- !app_assoc;
                 simpl; repeat split; try discriminate;
                 intros Hp; specialize (F5 Hp); congruence
             end
           | match goal with
             | |- context [?x ++ [?ev]] =>
                 exists (r1 ++ [ev]), []; rewrite E1, E2, (Hc eq_refl);
                 rewrite ?app_nil_r; repeat split; auto
             end ]).
Qed.

(** *** What the hook sends *)

(** Every send of the hook lies between the [Read] that returned a frame
    and the return of the call with that frame. *)
Lemma hook_inv (s : State) :
  Reachable ch s ->
  forall pre ev post,
    log s = pre ++ (THook, APublish ev) :: post ->
    exists sr f pre',
      nodeStreamRequest (n ch) = Some sr /\
      by_task TReader pre = pre' ++ [ARead (ReadFrame f)] /\
      ((by_task TReader post = [] /\ rpc s = ROnEventFrame sr f) \/
       exists post',
         by_task TReader post =
         AOnEventFrame sr (EventFrame f ch) :: post').
Proof.
  revert s. reach_induction.
  - intros [|e pre] ev post E; discriminate E.
  - intros l s s' R IH Hs pre ev post E.
    destruct (reader_inv R) as (_ & At & _).
    assert (forall t a,
              log s ++ [(t, a)] = pre ++ (THook, APublish ev) :: post ->
              (post = [] /\ pre = log s /\ t = THook /\ a = APublish ev) \/
              (exists post', post = post' ++ [(t, a)] /\
                 log s = pre ++ (THook, APublish ev) :: post')) as Split.
    { intros t a E'. symmetry in E'. apply snoc_split in E'.
      destruct E' as [(-> & -> & E') | (post' & -> & E')].
      - left. inversion E'. auto.
      - right. eauto. }
    destruct (not_started_inv R) as (_ & _ & N3 & _).
    destruct l; step_cases Hs; simpl in *;
      try (eapply IH; eassumption);
      (apply Split in E;
       destruct E as [(-> & -> & Et & Ea) | (post' & -> & E)];
       [ try discriminate Et|
         destruct (IH _ _ _ E) as (sr0 & f0 & pre' & Hsr & Hpre & Hpost);
         exists sr0, f0, pre'; split; [exact Hsr|]; split; [exact Hpre|];
         match goal with
         | |- context [by_task TReader (?p ++ [?e])] =>
             let B := fresh in
             pose proof (by_task_app TReader p [e]) as B;
             unfold Entry in B; rewrite B; clear B
         end; simpl;
         destruct Hpost as [[Hp Hr] | (post'' & Hp)]; rewrite Hp; simpl;
         try (left; split; [reflexivity | congruence]);
         try (right; eexists; reflexivity);
         try congruence;
         try (exfalso; rewrite (N3 eq_refl) in Hr; discriminate Hr) ]).
    + (* the return of the call *)
      right. exists []. simpl. now inversion Hr.
    + (* a send of the hook *)
      destruct At as (Hsr & pre' & Hpre).
      eexists _, _, pre'. split; [exact Hsr|]. split; [exact Hpre|].
      left. split; [reflexivity | assumption].
Qed.

(** The hook does nothing but send events. *)
Lemma hook_only_publishes (s : State) (a : Action) :
  Reachable ch s -> In (THook, a) (log s) -> exists ev, a = APublish ev.
Proof.
  intros R Hin. pose proof (performer_inv R _ _ Hin) as P.
  destruct a; simpl in P; try discriminate P; eauto.
  destruct P as [P | P]; discriminate P.
Qed.

(** Without a hook in the node, the log has nothing of [THook]. *)
Lemma no_hook_inv (s : State) :
  Reachable ch s -> nodeStreamRequest (n ch) = None ->
  forall a, ~ In (THook, a) (log s).
Proof.
  intros R Hn a Hin.
  destruct (hook_only_publishes _ R Hin) as [ev ->].
  apply in_split in Hin. destruct Hin as (pre & post & E).
  destruct (hook_inv R _ _ _ E) as (sr & _ & _ & Hsr & _). congruence.
Qed.

Lemma without_hook_id (lg : list Entry) :
  (forall a, ~ In (THook, a) lg) -> without_hook lg = lg.
Proof.
  unfold without_hook. induction lg as [|[t a] lg IH]; intros Hn;
    [reflexivity|].
  simpl. destruct t; simpl;
    try (f_equal; apply IH; intros b Hb; apply (Hn b); now right).
  exfalso. apply (Hn a). now left.
Qed.

(** Without a hook, what [channel.go] sends is all there is on
    [eventsOut]. *)
Lemma events_no_hook (s : State) :
  Reachable ch s -> nodeStreamRequest (n ch) = None ->
  events (log s) = own_events (log s).
Proof.
  intros R Hn. unfold own_events.
  now rewrite (@without_hook_id (log s) (no_hook_inv R Hn)).
Qed.

(** When the tasks of [channel.go] send no stream request and the hook
    nothing else, the events of [channel.go] are what is left of
    [eventsOut] without the stream requests. *)
Lemma filter_hook_events (lg : list Entry) :
  (forall t ev, In (t, APublish ev) lg ->
     is_stream_requested ev = Task_eqb t THook) ->
  filter (fun ev => negb (is_stream_requested ev)) (events lg) =
  own_events lg.
Proof.
  unfold own_events, without_hook, events.
  induction lg as [|[t a] lg IH]; intros Hk; [reflexivity|].
  assert (forall t' ev', In (t', APublish ev') lg ->
            is_stream_requested ev' = Task_eqb t' THook) as Hk'
    by (intros t' ev' Hin; apply Hk; now right).
  specialize (IH Hk').
  simpl. rewrite filter_app, IH.
  destruct a; simpl;
    try (destruct (Task_eqb t THook); simpl; reflexivity).
  rewrite (Hk t ev (or_introl eq_refl)).
  destruct (Task_eqb t THook); reflexivity.
Qed.

Lemma own_events_filter (s : State) :
  Reachable ch s ->
  (forall ev, In (THook, APublish ev) (log s) ->
     is_stream_requested ev = true) ->
  filter (fun ev => negb (is_stream_requested ev)) (events (log s)) =
  own_events (log s).
Proof.
  intros R Hk. apply filter_hook_events. intros t ev Hin.
  pose proof (performer_inv R _ _ Hin) as P. simpl in P.
  destruct P as [[-> [-> | [(f & ->) | (e & ->)]]] | [[-> ->] | ->]];
    try reflexivity.
  now apply Hk.
Qed.

(** After case [<-readerDone] nothing at all is sent on [eventsOut] once
    [run] has sent [ChannelClose]: the reader has finished, and with it
    every call of the hook. *)
Lemma quiet_after_close (s : State) :
  Reachable ch s ->
  path_of (pc s) = Some PathReaderDone ->
  forall pre post,
    log s = pre ++ (TRun, APublish (EventChannelClose ch)) :: post ->
    events post = [].
Proof.
  revert s. reach_induction; [discriminate|].
  intros l s s' R IH Hs Hp pre post E.
  pose proof (proj2 (proj2 (proj2 (proj2 (flags_inv R))))) as F5.
  assert (In (TRun, APublish (EventChannelClose ch)) (log s) ->
          close_published (pc s) = true) as Hcp.
  { intros Hin. apply by_task_In in Hin. rewrite (run_trace_inv R) in Hin.
    destruct (pc s) as [| | | | | | | | | | | | | | p | p]; simpl in *;
      try destruct p; simpl in *; intuition discriminate. }
  step_cases Hs; simpl in *; try (eapply IH; eassumption);
    (symmetry in E; apply snoc_split in E;
     destruct E as [(-> & _ & _) | (post' & -> & E)]; [reflexivity|];
     assert (In (TRun, APublish (EventChannelClose ch)) (log s)) as Hin
       by (rewrite E; apply in_elt);
     apply Hcp in Hin;
     try (exfalso; specialize (F5 Hp); discriminate F5);
     try match goal with Ex : pc s = _ |- _ => rewrite Ex in * end;
     simpl in *; try discriminate;
     match goal with
     | |- events (?p ++ [(?t, ?a)]) = [] =>
         let B := fresh in
         pose proof (events_snoc t a p) as B; unfold Entry in B;
         rewrite B; clear B
     end;
     first [rewrite (IH eq_refl _ _ E) | rewrite (IH Hp _ _ E)];
     reflexivity).
Qed.

End Events.

(** ** [run] can always return *)

Section Progress.
Context `{Collaborators}.
Variable ch : Channel.

Lemma waits_inv (s : State) : Reachable ch s -> waits_ok s.
Proof.
  revert s. reach_induction.
  - repeat split; simpl; try discriminate; auto.
    + intros [E | E]; discriminate E.
    + intros (p & E); discriminate E.
  - intros l s s' R (I1 & I2 & I3 & I4) Hs.
    step_cases Hs; unfold waits_ok; simpl;
      try match goal with E : pc s = _ |- _ => rewrite E in *; simpl in * end;
      repeat split; intros; auto; try discriminate; try congruence;
      try match goal with
          | I : ?a -> _, X : ?a |- _ =>
              specialize (I X);
              (discriminate I || (destruct I as [I | I]; discriminate I))
          | X : exists p, _ = RunReturned p |- _ =>
              destruct X as (? & X); discriminate X
          | X : _ \/ _ |- _ => destruct X as [X | X]; discriminate X
          | E : writer_switch ?a = WNotStarted |- _ =>
              unfold writer_switch in E;
              destruct (asMessage a); [discriminate E|];
              destruct (asFrame a); discriminate E
          end.
Qed.

(** One step of the schedule is possible and brings the return nearer. *)
Lemma progress (e0 : error) (s : State) :
  isParserError e0 = false -> Reachable ch s ->
  (forall p, pc s <> RunReturned p) ->
  exists s', step ch (next_label e0 s) s = Some s' /\
             remaining s' < remaining s.
Proof.
  intros E0 R Hn.
  destruct (waits_inv R) as (W1 & W2 & W3 & _).
  destruct (not_started_inv R) as (_ & _ & N3 & N4).
  destruct s as [r w p t wc d lg]; simpl in *.
  unfold next_label, remaining; simpl.
  destruct p; simpl;
    try (eexists; split; [reflexivity|]; simpl;
         destruct w, r, t; simpl; lia);
    try (destruct t; simpl; eexists; (split; [reflexivity|]); simpl;
         destruct w, r; simpl; lia).
  - (* go reader *)
    rewrite N3, N4 by auto. eexists. split; [reflexivity|]. simpl. lia.
  - (* go writer *)
    rewrite N4 by auto. eexists. split; [reflexivity|]. simpl. lia.
  - (* wait for the writer, case readerDone *)
    rewrite W3 by auto.
    destruct w; simpl;
      try (eexists; split; [reflexivity|]; simpl; destruct r, t; simpl; lia).
    destruct (W2 eq_refl) as [X | X]; discriminate X.
  - (* wait for the writer, case terminate *)
    rewrite W3 by auto.
    destruct w; simpl;
      try (eexists; split; [reflexivity|]; simpl; destruct r, t; simpl; lia).
    destruct (W2 eq_refl) as [X | X]; discriminate X.
  - (* wait for the reader *)
    destruct r; simpl; unfold reader_read; simpl; rewrite ?E0;
      try (eexists; split; [reflexivity|]; simpl; destruct w, t; simpl; lia).
    discriminate (W1 eq_refl).
  - exfalso. eapply Hn. reflexivity.
Qed.

(** Whatever has happened so far, some continuation makes [run] return:
    no interleaving leads the three tasks into a deadlock of their own
    making.  (The hub must give the termination signal and the stream must
    let a blocked [Read] fail once it is closed; [e0] is that failure.) *)
Theorem run_can_return (e0 : error) (s : State) :
  isParserError e0 = false -> Reachable ch s ->
  exists ls s', exec ch ls s = Some s' /\ done s' = true.
Proof.
  intros E0. remember (remaining s) as k eqn:Ek. revert s Ek.
  induction k as [k IH] using lt_wf_ind. intros s Ek R.
  assert ((exists p, pc s = RunReturned p) \/
          (forall p, pc s <> RunReturned p)) as [Hr | Hn]
    by (destruct (pc s); eauto; right; intros q; discriminate).
  - exists [], s. split; [reflexivity|].
    destruct (waits_inv R) as (_ & _ & _ & W4). now apply W4.
  - destruct (@progress e0 s E0 R Hn) as (s1 & Hs & Hlt).
    assert (remaining s1 < k) as Hk by lia.
    destruct (IH (remaining s1) Hk s1 eq_refl (Reachable_step _ R Hs))
      as (ls & s' & He & Hd).
    exists (next_label e0 s :: ls), s'. simpl. rewrite Hs. auto.
Qed.

End Progress.

(** * The claims *)

Section Claims.
Context `{Collaborators}.
Variable ch : Channel.

Lemma exec_Reachable (ls : list Label) (s : State) :
  run ch ls = Some s -> Reachable ch s.
Proof. intros E. now exists ls. Qed.

(** ** Events of a channel (C1) *)

(** C1, as amended.  On every execution the events that [channel.go]
    sends on [eventsOut] are the reader's events with at most one
    [ChannelClose] put in: the reader's events are [ChannelOpen] followed
    by [Frame] and [ParseError] events only; when the reader finished
    before the [select] (case [<-readerDone]) nothing follows
    [ChannelClose]; once [run] has returned there is exactly one
    [ChannelOpen] and exactly one [ChannelClose], and after case
    [<-readerDone] the sequence matches [Open (Frame | ParseError)* Close].
    These are all the events on [eventsOut] when the node has no
    stream-request hook.  With a hook, what the hook sends is sent between
    the [Read] that returned a frame and the return of the call with that
    frame, so before the [Frame] event, and after case [<-readerDone]
    nothing at all follows [ChannelClose]; when the hook sends stream
    requests only, the events of [channel.go] are what is left of
    [eventsOut] without the stream requests. *)
Theorem C1_events_of_a_channel (ls : list Label) (s : State) :
  run ch ls = Some s ->
  (exists r1 c r2,
     own_events (log s) = r1 ++ c ++ r2 /\
     open_then_data ch (r1 ++ r2) /\
     (c = [] \/ c = [EventChannelClose ch]) /\
     (In (TRun, ASelect PathReaderDone) (log s) -> r2 = []) /\
     (done s = true -> c = [EventChannelClose ch] /\ r1 ++ r2 <> []) /\
     (done s = true -> In (TRun, ASelect PathReaderDone) (log s) ->
      lifecycle_pattern (own_events (log s)) = true)) /\
  (nodeStreamRequest (n ch) = None -> events (log s) = own_events (log s)) /\
  (forall pre ev post,
     log s = pre ++ (THook, APublish ev) :: post ->
     exists sr f pre',
       nodeStreamRequest (n ch) = Some sr /\
       by_task TReader pre = pre' ++ [ARead (ReadFrame f)] /\
       ((by_task TReader post = [] /\ rpc s = ROnEventFrame sr f) \/
        exists post',
          by_task TReader post =
          AOnEventFrame sr (EventFrame f ch) :: post')) /\
  (In (TRun, ASelect PathReaderDone) (log s) ->
   forall pre post,
     log s = pre ++ (TRun, APublish (EventChannelClose ch)) :: post ->
     events post = []) /\
  ((forall ev, In (THook, APublish ev) (log s) ->
      is_stream_requested ev = true) ->
   filter (fun ev => negb (is_stream_requested ev)) (events (log s)) =
   own_events (log s)).
Proof.
  intros E. apply exec_Reachable in E.
  split; [|split; [apply (events_no_hook E)|
           split; [apply (hook_inv E) |
           split; [|apply (own_events_filter E)]]]];
    [|intros Hs; apply (quiet_after_close E);
      now apply (selected_path PathReaderDone E)].
  destruct (events_inv E) as (r1 & r2 & E1 & E2 & Hc & Ha).
  pose proof (reader_events_inv E) as Hr. rewrite E1 in Hr.
  destruct (flags_inv E) as (_ & _ & _ & F4 & _).
  destruct (joined_inv E) as (_ & J2).
  destruct (reader_inv E) as (_ & At & _).
  assert (done s = true ->
          close_published (pc s) = true /\ r1 ++ r2 <> []) as Hdone.
  { intros Hd. destruct (F4 Hd) as [p Ep]. split; [now rewrite Ep|].
    intros Hnil. rewrite <- E1 in Hnil.
    assert (rpc s = RDone) as Er by (apply J2; eauto).
    rewrite Er in At. destruct At as (pre & At).
    unfold reader_events in Hnil. rewrite At, flat_map_app in Hnil.
    apply app_eq_nil in Hnil. destruct Hnil as [Hnil _].
    destruct (reader_inv E) as (_ & _ & [Hd' | (rest & Hd')]).
    - rewrite At in Hd'. destruct pre; discriminate Hd'.
    - rewrite At in Hd'. destruct pre as [|x pre]; simpl in Hd'.
      + discriminate Hd'.
      + inversion Hd'; subst. discriminate Hnil. }
  exists r1, (if close_published (pc s) then [EventChannelClose ch] else []),
    r2.
  split; [exact E2|]. split; [exact Hr|].
  split; [destruct (close_published (pc s)); auto|].
  split; [intros Hs; apply Ha; now apply (selected_path PathReaderDone E)|].
  split.
  - intros Hd. destruct (Hdone Hd) as [-> Hne]. auto.
  - intros Hd Hs. destruct (Hdone Hd) as [Ec Hne].
    rewrite E2, Ec, (Ha (proj1 (selected_path PathReaderDone E) Hs)) in *.
    rewrite app_nil_r in *. destruct Hr as [Hr | (d & -> & Hr)];
      [contradiction|].
    simpl. now apply data_then_close_app with (ch := ch).
Qed.

(** ** Shutdown (C2, C3, C4) *)

(** The stream is closed only after the writer goroutine has finished. *)
Lemma close_after_writer (s : State) :
  Reachable ch s ->
  preceded_by (TWriter, ACloseTaskDone) (TRun, ACloseRwc) (log s).
Proof.
  revert s. reach_induction; [apply preceded_by_nil|].
  intros l s s' R IH Hs.
  destruct (flags_inv R) as (_ & F2 & _).
  destruct (joined_inv R) as (J1 & _).
  step_cases Hs; simpl; try assumption;
    (apply preceded_by_snoc; [assumption|]; intros E; inversion E);
    apply F2, J1; auto.
Qed.

(** C2.  On every execution the [select] of [run] takes at most one case
    and the raw stream is closed at most once; whoever closes it is [run],
    after the [select] has taken a case and after the writer goroutine has
    finished; once [run] has returned, exactly one case was taken and the
    stream was closed exactly once. *)
Theorem C2_one_path_one_close (ls : list Label) (s : State) :
  run ch ls = Some s ->
  count is_select (log s) <= 1 /\
  count is_close_rwc (log s) <= 1 /\
  (forall pre t post, log s = pre ++ (t, ACloseRwc) :: post ->
     t = TRun /\ (exists p, In (TRun, ASelect p) pre) /\
     In (TWriter, ACloseTaskDone) pre) /\
  (done s = true ->
   count is_select (log s) = 1 /\ count is_close_rwc (log s) = 1 /\
   exists p, forall q, In (TRun, ASelect q) (log s) <-> q = p).
Proof.
  intros E. apply exec_Reachable in E.
  destruct (counts_inv E) as [C1 C2]. rewrite C1, C2.
  split; [unfold selects_of; destruct (path_of (pc s)); lia|].
  split; [destruct (pc s); simpl; lia|].
  split.
  - intros pre t post El.
    assert (t = TRun) as ->.
    { apply (@performer_inv _ ch s E t ACloseRwc).
      rewrite El. apply in_elt. }
    split; [reflexivity|]. split; [eapply close_after_select; eauto|].
    eapply close_after_writer; eauto.
  - intros Hd. destruct (flags_inv E) as (_ & _ & _ & F4 & _).
    destruct (F4 Hd) as [p Ep]. rewrite Ep. simpl.
    split; [reflexivity|]. split; [reflexivity|].
    exists p. intros q. rewrite (selected_path q E), Ep. simpl.
    split; congruence.
Qed.

Lemma run_trace_of_path (s : State) (p : Path) :
  Reachable ch s -> In (TRun, ASelect p) (log s) ->
  by_task TRun (log s) =
    [AGo TReader; AGo TWriter; ASelect p] ++
    firstn (executed (pc s)) (shutdown ch p ++ [ACloseDone]) /\
  (done s = true -> pc s = RunReturned p).
Proof.
  intros R Hs. apply (selected_path p R) in Hs.
  rewrite (run_trace_inv R). unfold run_trace. rewrite Hs. split.
  - destruct (pc s); try discriminate Hs; reflexivity.
  - intros Hd. destruct (flags_inv R) as (_ & _ & _ & F4 & _).
    destruct (F4 Hd) as [q Eq]. rewrite Eq in Hs. simpl in Hs. congruence.
Qed.

(** C3.  When the [select] takes case [<-readerDone] (which it can only
    after the reader goroutine has finished), what [run] does afterwards
    is, in this order: send [ChannelClose]; send the channel on
    [channelClose]; receive from [terminate] (which returns only after the
    hub gave the signal); close [writec]; wait for the writer (which
    returns only after the writer has finished); close the raw stream; and
    finally the deferred [close(ch.done)].  At any moment a prefix of this
    has been done, and all of it once [run] has returned. *)
Theorem C3_shutdown_after_reader_done (ls : list Label) (s : State) :
  run ch ls = Some s ->
  In (TRun, ASelect PathReaderDone) (log s) ->
  (exists k,
     by_task TRun (log s) =
       [AGo TReader; AGo TWriter; ASelect PathReaderDone] ++
       firstn k
         ([APublish (EventChannelClose ch); AReport; AAwaitTerminate;
           ACloseWritec; AJoin TWriter; ACloseRwc] ++ [ACloseDone])) /\
  (done s = true ->
   by_task TRun (log s) =
     [AGo TReader; AGo TWriter; ASelect PathReaderDone;
      APublish (EventChannelClose ch); AReport; AAwaitTerminate;
      ACloseWritec; AJoin TWriter; ACloseRwc; ACloseDone]) /\
  preceded_by (TReader, ACloseTaskDone) (TRun, ASelect PathReaderDone)
    (log s) /\
  preceded_by (THub, ARequestTerminate) (TRun, AAwaitTerminate) (log s) /\
  preceded_by (TWriter, ACloseTaskDone) (TRun, AJoin TWriter) (log s).
Proof.
  intros E Hs. apply exec_Reachable in E.
  destruct (run_trace_of_path _ E Hs) as [T Hd].
  destruct (blocking_inv E) as (B1 & _ & B3 & B4 & _).
  split; [exists (executed (pc s)); exact T|].
  split; [|auto].
  intros D. rewrite T, (Hd D). reflexivity.
Qed.

(** C4.  When the [select] takes case [<-ch.terminate] (which it can only
    after the hub gave the signal), what [run] does afterwards is, in this
    order: send [ChannelClose]; close [writec]; wait for the writer; close
    the raw stream; wait for the reader (each wait returns only after that
    goroutine has finished); and finally the deferred [close(ch.done)].
    At any moment a prefix of this has been done, and all of it once [run]
    has returned. *)
Theorem C4_shutdown_after_terminate (ls : list Label) (s : State) :
  run ch ls = Some s ->
  In (TRun, ASelect PathTerminate) (log s) ->
  (exists k,
     by_task TRun (log s) =
       [AGo TReader; AGo TWriter; ASelect PathTerminate] ++
       firstn k
         ([APublish (EventChannelClose ch); ACloseWritec; AJoin TWriter;
           ACloseRwc; AJoin TReader] ++ [ACloseDone])) /\
  (done s = true ->
   by_task TRun (log s) =
     [AGo TReader; AGo TWriter; ASelect PathTerminate;
      APublish (EventChannelClose ch); ACloseWritec; AJoin TWriter;
      ACloseRwc; AJoin TReader; ACloseDone]) /\
  preceded_by (THub, ARequestTerminate) (TRun, ASelect PathTerminate)
    (log s) /\
  preceded_by (TWriter, ACloseTaskDone) (TRun, AJoin TWriter) (log s) /\
  preceded_by (TReader, ACloseTaskDone) (TRun, AJoin TReader) (log s).
Proof.
  intros E Hs. apply exec_Reachable in E.
  destruct (run_trace_of_path _ E Hs) as [T Hd].
  destruct (blocking_inv E) as (_ & B2 & _ & B4 & B5).
  split; [exists (executed (pc s)); exact T|].
  split; [|auto].
  intros D. rewrite T, (Hd D). reflexivity.
Qed.

(** ** The reader loop (C5, C6, C7) *)

Lemma reader_at_last (pre : list Action) (a : Action) (r : ReaderPc) :
  reader_at ch (pre ++ [a]) r ->
  match a with
  | APublish _ => r = RRead
  | ARead (ReadError e) =>
      if isParserError e then r = RPublishParseError e else r = RReturn
  | ARead (ReadFrame f) =>
      match nodeStreamRequest (n ch) with
      | Some sr => r = ROnEventFrame sr f
      | None => r = RPublishFrame f
      end
  | AOnEventFrame sr ev => exists f, ev = EventFrame f ch /\ r = RPublishFrame f
  | ACloseTaskDone => r = RDone
  | _ => False
  end.
Proof.
  destruct r; simpl.
  - intros E. destruct pre; discriminate E.
  - intros E. destruct pre; discriminate E.
  - intros (pre' & ev & E). apply last_two in E. destruct E as [_ ->].
    reflexivity.
  - intros (Ep & pre' & E). apply last_two in E. destruct E as [_ ->].
    now rewrite Ep.
  - intros (Ep & pre' & E). apply last_two in E. destruct E as [_ ->].
    now rewrite Ep.
  - intros (pre' & [(Ep & E) | (sr & Ep & E)]);
      apply last_two in E; destruct E as [_ ->].
    + now rewrite Ep.
    + eauto.
  - intros (pre' & e & Ep & E). apply last_two in E. destruct E as [_ ->].
    now rewrite Ep.
  - intros (pre' & E). apply last_two in E. destruct E as [_ ->].
    reflexivity.
Qed.



(** C6.  After a [Read] that failed with a [ParserError], the next thing
    the reader goroutine does is to send the [ParseError] event with that
    error and this channel, and the next thing after that is another
    [Read]: the reader is either about to send the event, or has sent it
    and is about to read, or has read again.  The reader goroutine ends
    only after a [Read] error that is not a [ParserError]. *)
Theorem C6_parse_error_is_published (ls : list Label) (s : State)
    (pre post : list Action) (e : error) :
  run ch ls = Some s ->
  by_task TReader (log s) = pre ++ ARead (ReadError e) :: post ->
  isParserError e = true ->
  ((post = [] /\ rpc s = RPublishParseError e) \/
   (post = [APublish (EventParseError e ch)] /\ rpc s = RRead) \/
   (exists r post',
      post = APublish (EventParseError e ch) :: ARead r :: post')) /\
  (rpc s = RReturn \/ rpc s = RDone ->
   exists pre' e' post',
     by_task TReader (log s) = pre' ++ ARead (ReadError e') :: post' /\
     isParserError e' = false /\ (post' = [] \/ post' = [ACloseTaskDone])).
Proof.
  intros E Er Ee. apply exec_Reachable in E.
  destruct (reader_inv E) as (Adj & At & _). split.
  - destruct (adjacent_next _ _ _ Adj Er) as [Hn | (b & post' & Hn & Hb)].
    + left. split; [exact Hn|]. rewrite Er, Hn in At.
      apply reader_at_last in At. now rewrite Ee in At.
    + right. inversion Hb; subst; [|congruence].
      rewrite snoc_cons in Er.
      destruct (adjacent_next _ _ _ Adj Er)
        as [Hn' | (b' & post'' & Hn' & Hb')].
      * left. subst post'. split; [reflexivity|]. rewrite Er in At.
        apply reader_at_last in At. exact At.
      * right. inversion Hb'; subst. eauto.
  - intros Hpc. destruct Hpc as [Hpc | Hpc]; rewrite Hpc in At; simpl in At.
    + destruct At as (pre' & e' & Ee' & At). exists pre', e', []. auto.
    + destruct At as (pre' & At).
      destruct (adjacent_prev _ _ _ Adj At) as [Hp | (pre'' & a & Hp & Ha)].
      * subst pre'. destruct (reader_inv E) as (_ & _ & [Hd | (rest & Hd)]);
          rewrite At in Hd; discriminate Hd.
      * inversion Ha; subst. exists pre'', e0, [ACloseTaskDone].
        rewrite At, <- app_assoc. auto.
Qed.

(** C7.  After a [Read] that returned a frame: with a stream-request hook
    in the node, the next thing the reader goroutine does is to call the
    hook with the [Frame] event and the next thing after that is to send
    this event; without a hook the next thing is to send the event.
    Conversely a [Frame] event is sent directly after the call of the hook
    with it (hook set) or directly after the [Read] that returned its
    frame (no hook).  The hook is called by the reader goroutine itself, and
    without a hook none is ever called. *)
Theorem C7_hook_runs_before_the_frame_event (ls : list Label) (s : State) :
  run ch ls = Some s ->
  (forall pre f post,
     by_task TReader (log s) = pre ++ ARead (ReadFrame f) :: post ->
     match nodeStreamRequest (n ch) with
     | Some sr =>
         (post = [] /\ rpc s = ROnEventFrame sr f) \/
         (post = [AOnEventFrame sr (EventFrame f ch)] /\
          rpc s = RPublishFrame f) \/
         (exists post',
            post = AOnEventFrame sr (EventFrame f ch)
                   :: APublish (EventFrame f ch) :: post')
     | None =>
         (post = [] /\ rpc s = RPublishFrame f) \/
         (exists post', post = APublish (EventFrame f ch) :: post')
     end) /\
  (forall pre f c post,
     by_task TReader (log s) = pre ++ APublish (EventFrame f c) :: post ->
     c = ch /\
     match nodeStreamRequest (n ch) with
     | Some sr =>
         exists pre', pre = pre' ++ [AOnEventFrame sr (EventFrame f ch)]
     | None => exists pre', pre = pre' ++ [ARead (ReadFrame f)]
     end) /\
  (forall t sr ev, In (t, AOnEventFrame sr ev) (log s) -> t = TReader) /\
  (nodeStreamRequest (n ch) = None ->
   forall t sr ev, ~ In (t, AOnEventFrame sr ev) (log s)).
Proof.
  intros E. apply exec_Reachable in E.
  destruct (reader_inv E) as (Adj & At & Hd). split; [|split; [|split]].
  - intros pre f post Er.
    destruct (adjacent_next _ _ _ Adj Er) as [Hn | (b & post' & Hn & Hb)].
    + rewrite Er, Hn in At. apply reader_at_last in At.
      destruct (nodeStreamRequest (n ch)); left; auto.
    + inversion Hb; subst;
        match goal with E' : nodeStreamRequest _ = _ |- _ => rewrite E' end;
        [|right; eauto].
      right.
      rewrite snoc_cons in Er.
      destruct (adjacent_next _ _ _ Adj Er)
        as [Hn' | (b' & post'' & Hn' & Hb')].
      * left. subst post'. split; [reflexivity|]. rewrite Er in At.
        apply reader_at_last in At. destruct At as (f' & Ef & At).
        inversion Ef; subst. exact At.
      * right. inversion Hb'; subst. eauto.
  - intros pre f c post Er.
    destruct (adjacent_prev _ _ _ Adj Er) as [Hp | (pre' & a & Hp & Ha)].
    + subst pre. destruct Hd as [Hd | (rest & Hd)]; rewrite Er in Hd;
        discriminate Hd.
    + inversion Ha; subst;
        match goal with E' : nodeStreamRequest _ = _ |- _ => rewrite E' end;
        eauto.
  - intros t sr ev Hin. apply (performer_inv E) in Hin. exact Hin.
  - intros En t sr ev Hin.
    assert (t = TReader) as -> by (apply (performer_inv E) in Hin; exact Hin).
    apply by_task_In in Hin. apply in_split in Hin.
    destruct Hin as (l1 & l2 & Er).
    destruct (adjacent_prev _ _ _ Adj Er) as [Hp | (pre' & a & Hp & Ha)].
    + subst l1. destruct Hd as [Hd | (rest & Hd)]; rewrite Er in Hd;
        discriminate Hd.
    + inversion Ha; subst. congruence.
Qed.

(** ** The writer loop (C9, C10) *)

Lemma writer_at_last (pre : list Action) (a : Action) (w : WriterPc) :
  writer_at (pre ++ [a]) w ->
  match a with
  | AWriteMessage _ _ | AWriteFrame _ _ => w = WRange \/ w = WReturn
  | ATake what =>
      match asMessage what with
      | Some m => w = WWriteMessage m
      | None =>
          match asFrame what with
          | Some f => w = WWriteFrame f
          | None => w = WRange \/ w = WReturn
          end
      end
  | ACloseTaskDone => w = WDone
  | _ => False
  end.
Proof.
  assert (forall a', back_at_range a' ->
          match a' with
          | AWriteMessage _ _ | AWriteFrame _ _ => True
          | ATake what => asMessage what = None /\ asFrame what = None
          | _ => False
          end) as Hb.
  { intros a' [(m & res & ->) | [(f & res & ->) | (what & -> & E1 & E2)]];
      auto. }
  destruct w; simpl.
  - intros E. destruct pre; discriminate E.
  - intros [E | (pre' & a' & E & Ha)]; [destruct pre; discriminate E|].
    apply last_two in E. destruct E as [_ ->]. apply Hb in Ha.
    destruct a'; try contradiction; auto.
    destruct Ha as [-> ->]. auto.
  - intros (pre' & what & E & Em). apply last_two in E.
    destruct E as [_ ->]. now rewrite Em.
  - intros (pre' & what & E & Em & Ef). apply last_two in E.
    destruct E as [_ ->]. now rewrite Em, Ef.
  - intros [E | (pre' & a' & E & Ha)]; [destruct pre; discriminate E|].
    apply last_two in E. destruct E as [_ ->]. apply Hb in Ha.
    destruct a'; try contradiction; auto.
    destruct Ha as [-> ->]. auto.
  - intros (pre' & E). apply last_two in E. destruct E as [_ ->].
    reflexivity.
Qed.

Lemma writer_never_publishes (s : State) :
  Reachable ch s -> forall ev, ~ In (TWriter, APublish ev) (log s).
Proof.
  intros R ev Hin. apply (performer_inv R) in Hin. simpl in Hin.
  destruct Hin as [(Ht & _) | [(Ht & _) | Ht]]; discriminate Ht.
Qed.

(** The result of a write changes nothing but the entry that records it. *)
Lemma erase_step (l : Label) (s s' : State) :
  step ch l s = Some s' ->
  step ch (erase_label l) (erase_state s) = Some (erase_state s').
Proof.
  intros Hs. destruct l; simpl in *;
    unfold run_step, run_select, reader_step, reader_read, hook_publish,
      writer_take, writer_write, writer_step, hub_terminate in *;
    simpl in *;
    repeat match type of Hs with
           | context [match ?x with _ => _ end] => destruct x eqn:?
           end;
    try discriminate Hs; inversion Hs; subst; clear Hs;
    unfold erase_state; simpl; rewrite ?map_app; reflexivity.
Qed.

Lemma erase_exec (ls : list Label) (s s' : State) :
  exec ch ls s = Some s' ->
  exec ch (map erase_label ls) (erase_state s) = Some (erase_state s').
Proof.
  revert s. induction ls as [|l ls IH]; intros s E; simpl in *.
  - now inversion E.
  - destruct (step ch l s) as [s1|] eqn:E1; [|discriminate E].
    rewrite (erase_step _ _ E1). now apply IH.
Qed.

Lemma erase_events (lg : list Entry) :
  events (map (fun e => (fst e, erase_action (snd e))) lg) = events lg.
Proof.
  unfold events. induction lg as [|[t a] lg IH]; [reflexivity|].
  simpl. rewrite IH. destruct a; reflexivity.
Qed.

(** C9.  A write that returned an error leaves no other trace than the
    result recorded for it: the same scheduling with every write succeeding
    is an execution too, and it ends in the same state with the same log up
    to the recorded results, so with the same events; the writer goroutine
    sends no event at all; and directly after the failed write the writer
    is back at its loop, taking the next item or leaving because the queue
    is closed. *)
Theorem C9_write_error_is_dropped (ls : list Label) (s : State)
    (pre post : list Action) (a : Action) (err : error) :
  run ch ls = Some s ->
  by_task TWriter (log s) = pre ++ a :: post ->
  ((exists m, a = AWriteMessage m (Some err)) \/
   (exists f, a = AWriteFrame f (Some err))) ->
  run ch (map erase_label ls) = Some (erase_state s) /\
  events (log (erase_state s)) = events (log s) /\
  (forall ev, ~ In (TWriter, APublish ev) (log s)) /\
  ((post = [] /\ (wpc s = WRange \/ wpc s = WReturn)) \/
   (exists b post', post = b :: post' /\ loop_again b)).
Proof.
  intros E Ew Ha. split; [exact (erase_exec _ _ E)|].
  split; [apply erase_events|].
  apply exec_Reachable in E. split; [now apply writer_never_publishes|].
  destruct (writer_inv E) as (Adj & At).
  destruct (adjacent_next _ _ _ Adj Ew) as [Hn | (b & post' & Hn & Hb)].
  - left. split; [exact Hn|]. rewrite Ew, Hn in At.
    apply writer_at_last in At.
    destruct Ha as [(m & ->) | (f & ->)]; exact At.
  - right. exists b, post'. split; [exact Hn|].
    destruct Ha as [(m & ->) | (f & ->)]; inversion Hb; subst; assumption.
Qed.

(** C10.  An item taken from [writec] that is neither a [Message] nor a
    [Frame] is followed by no write: directly after taking it the writer
    is back at its loop, taking the next item or leaving because the queue
    is closed; the writer goroutine sends no event; and wherever the writer
    waits at its loop with the queue open, handing over such an item is a
    step whose only trace is that the item was taken. *)
Theorem C10_other_items_are_discarded (ls : list Label) (s : State)
    (pre post : list Action) (what : Any) :
  run ch ls = Some s ->
  by_task TWriter (log s) = pre ++ ATake what :: post ->
  asMessage what = None -> asFrame what = None ->
  ((post = [] /\ (wpc s = WRange \/ wpc s = WReturn)) \/
   (exists b post', post = b :: post' /\ loop_again b)) /\
  (forall ev, ~ In (TWriter, APublish ev) (log s)) /\
  (forall s0, wpc s0 = WRange -> writec_closed s0 = false ->
     step ch (LTake (Some what)) s0 =
     Some (writer_to WRange (emit TWriter (ATake what) s0))).
Proof.
  intros E Ew Em Ef. split; [|split].
  - apply exec_Reachable in E. destruct (writer_inv E) as (Adj & At).
    destruct (adjacent_next _ _ _ Adj Ew) as [Hn | (b & post' & Hn & Hb)].
    + left. split; [exact Hn|]. rewrite Ew, Hn in At.
      apply writer_at_last in At. now rewrite Em, Ef in At.
    + right. exists b, post'. split; [exact Hn|].
      inversion Hb; subst; congruence.
  - apply exec_Reachable in E. now apply writer_never_publishes.
  - intros s0 Hw Hc. simpl. unfold writer_take, writer_switch.
    now rewrite Hw, Hc, Em, Ef.
Qed.

(** ** Construction (C8) *)

(** C8.  [newChannel] returns the error of [NewParser] when [NewParser]
    rejects the configuration, and a channel otherwise, never both; the
    configuration handed to [NewParser] is the node's with the raw stream
    as reader and writer and the byte just drawn by [randomByte] as
    signature link identifier; the channel returned holds the given
    endpoint, label, stream and node and the parser built.  Whatever the
    outcome, [newChannel] performs no operation on a raw stream and starts
    no goroutine; it draws exactly one byte. *)
Theorem C8_newChannel
    (NewParser : ParserConf -> Parser + error)
    (n0 : Node) (e : Endpoint) (label0 : string) (rwc0 : ReadWriteCloser)
    (w : World) :
  exists pconf,
    (Reader pconf = rwc0 /\ Writer pconf = rwc0 /\
     pconf_Dialect pconf = conf_Dialect (conf n0) /\
     InKey pconf = conf_InKey (conf n0) /\
     OutSystemId pconf = conf_OutSystemId (conf n0) /\
     OutVersion pconf = conf_OutVersion (conf n0) /\
     OutComponentId pconf = conf_OutComponentId (conf n0) /\
     OutKey pconf = conf_OutKey (conf n0) /\
     OutSignatureLinkId pconf = entropy w (drawn w)) /\
    (forall err,
       fst (newChannel NewParser n0 e label0 rwc0 w) = inr err <->
       NewParser pconf = inr err) /\
    (forall c,
       fst (newChannel NewParser n0 e label0 rwc0 w) = inl c <->
       exists p, NewParser pconf = inl p /\
         c = {| ch_Endpoint := e; label := label0; rwc := rwc0; n := n0;
                parser := p |}) /\
    stream_ops (snd (newChannel NewParser n0 e label0 rwc0 w)) =
      stream_ops w /\
    goroutines (snd (newChannel NewParser n0 e label0 rwc0 w)) =
      goroutines w /\
    entropy (snd (newChannel NewParser n0 e label0 rwc0 w)) = entropy w /\
    drawn (snd (newChannel NewParser n0 e label0 rwc0 w)) = S (drawn w).
Proof.
  unfold newChannel, randomByte.
  match goal with
  | |- context [NewParser ?c] => exists c; destruct (NewParser c) as [p|err0]
  end; simpl.
  - repeat split; auto; try discriminate.
    + intros E. inversion E. eauto.
    + intros (p' & E & ->). inversion E. reflexivity.
  - repeat split; auto; try discriminate; try congruence.
    intros (p' & E & _). discriminate E.
Qed.

End Claims.

(** * Further properties of [run] *)

Section MoreRun.
Context `{Collaborators}.
Variable ch : Channel.

Lemma run_Reachable (ls : list Label) (s : State) :
  run ch ls = Some s -> Reachable ch s.
Proof. intros E. now exists ls. Qed.

(** ** Flags as functions of where [run] stands *)

Lemma run_flags_inv (s : State) :
  Reachable ch s ->
  writec_closed s = writec_closed_at (pc s) /\
  (terminate_needed (pc s) = true -> terminate s = true) /\
  count is_report (log s) = reports_of (pc s).
Proof.
  revert s. reach_induction; [repeat split; discriminate|].
  intros l s s' R (I1 & I2 & I3) Hs.
  step_cases Hs; simpl; rewrite ?count_snoc, ?I3; simpl;
    try match goal with E : pc s = _ |- _ => rewrite E in *; simpl in * end;
    repeat split; auto; try lia; try congruence;
    try match goal with p : Path |- _ => destruct p; simpl; auto; lia end.
Qed.

(** ** X1: every execution can be continued to the return of [run] *)

(** X1.  Whatever schedule [ls] the channel has followed, there is a
    continuation after which [run] has returned and [ch.done] is closed,
    provided the stream can make a [Read] fail with an error [e0] that is not
    a [ParserError]: the goroutines and [run] never block one another for
    good. *)
Theorem X1_run_can_always_return (e0 : error) (ls : list Label) (s : State) :
  isParserError e0 = false ->
  run ch ls = Some s ->
  exists ls' s', run ch (ls ++ ls') = Some s' /\ done s' = true.
Proof.
  intros E0 E.
  destruct (@run_can_return _ ch e0 s E0 (run_Reachable _ E))
    as (ls' & s' & E' & Hd).
  exists ls', s'. split; [|exact Hd].
  unfold run in *. now rewrite exec_app, E.
Qed.

(** ** X2: the events are the results of the reads, in order *)

Lemma reads_of_snoc (rl : list Action) (a : Action) :
  reads_of (rl ++ [a]) =
  reads_of rl ++ match a with ARead r => [r] | _ => [] end.
Proof. unfold reads_of. rewrite flat_map_app. simpl. now rewrite app_nil_r. Qed.

Lemma reader_account_inv (s : State) :
  Reachable ch s ->
  reader_events (log s) ++ owed_event ch (rpc s) =
  opened ch (rpc s) ++
  flat_map (event_of_read ch) (reads_of (by_task TReader (log s))).
Proof.
  revert s. reach_induction; [reflexivity|].
  intros l s s' R IH Hs.
  destruct (not_started_inv R) as (N1 & _ & N3 & _).
  destruct (reader_inv R) as (_ & At & _).
  step_cases Hs; simpl;
    rewrite ?reader_events_snoc, ?by_task_snoc; simpl;
    rewrite ?app_nil_r, ?reads_of_snoc, ?flat_map_app; simpl;
    rewrite ?app_nil_r;
    try match goal with E : rpc s = _ |- _ => rewrite ?E end;
    simpl; rewrite ?app_nil_r;
    simpl in IH; rewrite ?app_nil_r in IH; try exact IH;
    try (rewrite IH;
         try match goal with E : isParserError _ = _ |- _ => rewrite E end;
         simpl; rewrite ?app_nil_r; reflexivity).
  - (* go reader *)
    rewrite (N3 eq_refl) in IH. simpl in IH. rewrite app_nil_r in IH.
    exact IH.
  - (* publish Open *)
    simpl in At. unfold reader_events in *. rewrite At in *. reflexivity.
Qed.

(** X2.  The events the statements of the reader have sent, together
    with the one the reader has read the cause of but not sent yet, are
    [ChannelOpen] followed by one event per result of [Read], in the order
    of the reads: a [Frame] event for a frame, a [ParseError] event for a
    [ParserError], nothing for another error.  So once [run] has returned
    after the reader ended on its own, the events that [channel.go] has
    sent are exactly [ChannelOpen], the events of the reads in order,
    [ChannelClose]; without a stream-request hook in the node these are all
    the events on [eventsOut] (a hook adds what it sends itself). *)
Theorem X2_events_are_the_reads (ls : list Label) (s : State) :
  run ch ls = Some s ->
  reader_events (log s) ++ owed_event ch (rpc s) =
    opened ch (rpc s) ++
    flat_map (event_of_read ch) (reads_of (by_task TReader (log s))) /\
  (done s = true -> In (TRun, ASelect PathReaderDone) (log s) ->
   own_events (log s) =
     EventChannelOpen ch ::
     flat_map (event_of_read ch) (reads_of (by_task TReader (log s))) ++
     [EventChannelClose ch] /\
   (nodeStreamRequest (n ch) = None ->
    events (log s) =
      EventChannelOpen ch ::
      flat_map (event_of_read ch) (reads_of (by_task TReader (log s))) ++
      [EventChannelClose ch])).
Proof.
  intros E. apply run_Reachable in E.
  pose proof (reader_account_inv E) as A. split; [exact A|].
  intros Hd Hs.
  destruct (events_inv E) as (r1 & r2 & E1 & E2 & _ & Ha).
  destruct (flags_inv E) as (_ & _ & _ & F4 & _).
  destruct (joined_inv E) as (_ & J2).
  destruct (F4 Hd) as [p Ep].
  assert (rpc s = RDone) as Er by (apply J2; eauto).
  rewrite (Ha (proj1 (selected_path PathReaderDone E) Hs)) in *.
  rewrite Er in A. simpl in A. rewrite !app_nil_r in *.
  assert (own_events (log s) =
          EventChannelOpen ch ::
          flat_map (event_of_read ch) (reads_of (by_task TReader (log s))) ++
          [EventChannelClose ch]) as Own
    by (rewrite E2, Ep, <- E1, A; reflexivity).
  split; [exact Own|].
  intros Hn. now rewrite (events_no_hook E Hn).
Qed.

(** ** X3: the writer writes what it takes, in order *)

Lemma takes_of_snoc (wl : list Action) (a : Action) :
  takes_of (wl ++ [a]) =
  takes_of wl ++ match a with ATake what => [what] | _ => [] end.
Proof. unfold takes_of. rewrite flat_map_app. simpl. now rewrite app_nil_r. Qed.

Lemma writes_of_snoc (wl : list Action) (a : Action) :
  writes_of (wl ++ [a]) =
  writes_of wl ++ match a with
                  | AWriteMessage m _ => [WrittenMessage m]
                  | AWriteFrame f _ => [WrittenFrame f]
                  | _ => []
                  end.
Proof. unfold writes_of. rewrite flat_map_app. simpl. now rewrite app_nil_r. Qed.

Lemma owed_write_switch (what : Any) :
  owed_write (writer_switch what) = must_write what.
Proof.
  unfold writer_switch, must_write.
  destruct (asMessage what); [reflexivity|].
  destruct (asFrame what); reflexivity.
Qed.

(** X3.  The writes the writer has made, together with the one it has taken
    the item of but not made yet, are the writes of the items it has taken
    from [writec], in the order in which it took them: one [WriteMessage]
    for a [Message], one [WriteFrame] for a [Frame] that is not a [Message],
    none for anything else.  Nothing is written twice or out of order, and
    once the writer has finished nothing taken is left unwritten. *)
Theorem X3_writes_are_the_items_taken (ls : list Label) (s : State) :
  run ch ls = Some s ->
  writes_of (by_task TWriter (log s)) ++ owed_write (wpc s) =
    flat_map must_write (takes_of (by_task TWriter (log s))) /\
  (wpc s = WDone ->
   writes_of (by_task TWriter (log s)) =
   flat_map must_write (takes_of (by_task TWriter (log s)))).
Proof.
  intros E. apply run_Reachable in E.
  assert (writes_of (by_task TWriter (log s)) ++ owed_write (wpc s) =
          flat_map must_write (takes_of (by_task TWriter (log s)))) as A.
  { clear ls. revert s E. reach_induction; [reflexivity|].
    intros l s s' R IH Hs.
    destruct (not_started_inv R) as (_ & _ & _ & N4).
    step_cases Hs; simpl; rewrite ?by_task_snoc; simpl;
      rewrite ?app_nil_r, ?takes_of_snoc, ?writes_of_snoc, ?flat_map_app;
      simpl; rewrite ?app_nil_r, ?owed_write_switch;
      try match goal with E : wpc s = _ |- _ => rewrite ?E end;
      simpl; rewrite ?app_nil_r;
      simpl in IH; rewrite ?app_nil_r in IH; try exact IH;
      try (rewrite <- IH; simpl; rewrite ?app_nil_r; reflexivity).
    rewrite (N4 (or_intror eq_refl)) in IH. simpl in IH.
    rewrite app_nil_r in IH. exact IH. }
  split; [exact A|]. intros Ew. rewrite Ew in A. simpl in A.
  now rewrite app_nil_r in A.
Qed.

(** ** X4: when [ch.done] is closed the channel has stopped *)

Lemma count_In (p : Action -> bool) (t : Task) (a : Action)
    (lg : list Entry) :
  In (t, a) lg -> p a = true -> 1 <= count p lg.
Proof.
  intros Hin Hp. unfold count.
  assert (In (t, a) (filter (fun e => p (snd e)) lg)) as Hf
    by (apply filter_In; auto).
  destruct (filter (fun e => p (snd e)) lg); [contradiction|simpl; lia].
Qed.

(** What one step adds to the log, and who cannot have made it. *)
Lemma step_log (l : Label) (s s' : State) :
  step ch l s = Some s' ->
  (log s' = log s /\ pc s' = pc s) \/
  (exists t a,
     log s' = log s ++ [(t, a)] /\
     (t = TWriter -> wpc s <> WDone) /\
     (t = TReader -> rpc s <> RDone) /\
     (t <> TRun -> pc s' = pc s)).
Proof.
  intros Hs.
  step_cases Hs; simpl; auto; right; eexists _, _;
    (split; [reflexivity|]); repeat split; intros; try congruence;
    try discriminate.
Qed.

Lemma returned_inv (s : State) :
  Reachable ch s -> done s = true ->
  rpc s = RDone /\ wpc s = WDone /\ writec_closed s = true /\
  terminate s = true /\ exists p, pc s = RunReturned p.
Proof.
  intros R Hd.
  destruct (flags_inv R) as (_ & _ & _ & F4 & _).
  destruct (joined_inv R) as (J1 & J2).
  destruct (run_flags_inv R) as (W1 & W2 & _).
  destruct (F4 Hd) as [p Ep]. rewrite Ep in *. simpl in *.
  repeat split; eauto.
Qed.

Lemma returned_no_step (l : Label) (s : State) :
  Reachable ch s -> done s = true -> step ch l s = None.
Proof.
  intros R Hd.
  destruct (returned_inv R Hd) as (Er & Ew & _ & Et & p & Ep).
  destruct l; simpl;
    unfold run_step, run_select, reader_step, reader_read, hook_publish,
      writer_take, writer_write, writer_step, hub_terminate;
    rewrite ?Er, ?Ew, ?Et, ?Ep; reflexivity.
Qed.

Lemma close_done_last (s : State) :
  Reachable ch s -> done s = true ->
  exists pre, log s = pre ++ [(TRun, ACloseDone)].
Proof.
  revert s. reach_induction; [discriminate|].
  intros l s s' R IH Hs Hd.
  destruct (done s) eqn:Ed.
  - rewrite (returned_no_step l R Ed) in Hs. discriminate Hs.
  - step_cases Hs; simpl in *; try congruence. eauto.
Qed.

(** X4.  Once [ch.done] is closed, both goroutines have finished, [writec]
    is closed, the termination signal was given, the raw stream was closed
    exactly once, the deferred [close(ch.done)] is the last thing that has
    happened, and nothing can happen any more: no step of the channel is
    possible. *)
Theorem X4_done_means_stopped (ls : list Label) (s : State) :
  run ch ls = Some s ->
  done s = true ->
  rpc s = RDone /\ wpc s = WDone /\
  writec_closed s = true /\ terminate s = true /\
  count is_close_rwc (log s) = 1 /\
  (exists pre, log s = pre ++ [(TRun, ACloseDone)]) /\
  (forall l, step ch l s = None) /\
  (forall ls' s', run ch (ls ++ ls') = Some s' -> ls' = []).
Proof.
  intros E Hd. pose proof (run_Reachable _ E) as R.
  destruct (returned_inv R Hd) as (Er & Ew & Ec & Et & p & Ep).
  repeat split; auto.
  - rewrite (proj2 (counts_inv R)), Ep. reflexivity.
  - now apply close_done_last.
  - intros l. now apply returned_no_step.
  - intros ls' s' E'. unfold run in *. rewrite exec_app, E in E'.
    destruct ls' as [|l ls']; [reflexivity|]. simpl in E'.
    now rewrite (returned_no_step l R Hd) in E'.
Qed.

(** ** X5: the closure is reported to the hub at most once *)

(** X5.  [run] sends the channel on [channelClose] at most once, and nobody
    else does; it does so only after the [select] took case [<-readerDone];
    after case [<-ch.terminate] nothing is ever sent on [channelClose]; and
    once [run] has returned after case [<-readerDone] the channel has been
    sent exactly once. *)
Theorem X5_closure_reported_at_most_once (ls : list Label) (s : State) :
  run ch ls = Some s ->
  count is_report (log s) <= 1 /\
  (forall t, In (t, AReport) (log s) ->
     t = TRun /\ In (TRun, ASelect PathReaderDone) (log s)) /\
  (In (TRun, ASelect PathTerminate) (log s) ->
   count is_report (log s) = 0) /\
  (done s = true -> In (TRun, ASelect PathReaderDone) (log s) ->
   count is_report (log s) = 1).
Proof.
  intros E. apply run_Reachable in E.
  destruct (run_flags_inv E) as (_ & _ & C).
  split; [rewrite C; destruct (pc s) as [| | | | | | | | | | | | | | [|] | [|]];
          simpl; lia|].
  split; [|split].
  - intros t Hin. split; [exact (performer_inv E _ _ Hin)|].
    apply (selected_path PathReaderDone E).
    pose proof (@count_In is_report _ _ _ Hin eq_refl) as Hc. rewrite C in Hc.
    destruct (pc s) as [| | | | | | | | | | | | | | [|] | [|]];
      simpl in *; try lia; reflexivity.
  - intros Hs. apply (selected_path PathTerminate E) in Hs. rewrite C.
    destruct (pc s) as [| | | | | | | | | | | | | | [|] | [|]];
      simpl in *; try discriminate Hs; reflexivity.
  - intros Hd Hs. apply (selected_path PathReaderDone E) in Hs.
    destruct (flags_inv E) as (_ & _ & _ & F4 & _).
    destruct (F4 Hd) as [p Ep]. rewrite C, Ep in *. simpl in Hs.
    inversion Hs. reflexivity.
Qed.

(** ** X6: the stream is not written to after it is closed *)

Lemma after_close_inv (s : State) :
  Reachable ch s ->
  forall pre post, log s = pre ++ (TRun, ACloseRwc) :: post ->
  by_task TWriter post = [] /\
  (In (TRun, ASelect PathReaderDone) (log s) -> by_task TReader post = []).
Proof.
  revert s. reach_induction.
  - intros [|e pre] post E; discriminate E.
  - intros l s s' R IH Hs pre post El.
    destruct (step_log _ _ Hs) as [(El' & Ep) | (t & a & El' & Hw & Hr & Hp)].
    + rewrite El' in El. destruct (IH _ _ El) as [I1 I2]. split; [exact I1|].
      intros Hsel. apply I2. now rewrite <- El'.
    + rewrite El' in El. symmetry in El. apply snoc_split in El.
      destruct El as [(-> & _) | (post' & -> & El)]; [split; reflexivity|].
      destruct (IH _ _ El) as [I1 I2].
      assert (In (TRun, ACloseRwc) (log s)) as Hin
        by (rewrite El; apply in_elt).
      pose proof (@count_In is_close_rwc _ _ _ Hin eq_refl) as Hc.
      rewrite (proj2 (counts_inv R)) in Hc.
      assert (closes_of (pc s) = 1) as Hc1
        by (destruct (pc s); simpl in *; lia).
      assert (wpc s = WDone) as Ew by (apply (joined_inv R); auto).
      pose proof (by_task_snoc TWriter t a post') as B1.
      pose proof (by_task_snoc TReader t a post') as B2.
      unfold Entry in B1, B2. rewrite B1, B2. clear B1 B2. split.
      * rewrite I1. destruct t; simpl; try reflexivity.
        exfalso. now apply Hw.
      * intros Hsel. rewrite El' in Hsel. apply in_app_or in Hsel.
        destruct Hsel as [Hsel | [Hsel | []]].
        -- rewrite (I2 Hsel). destruct t; simpl; try reflexivity.
           exfalso. apply Hr; [reflexivity|].
           apply (flags_inv R). now apply (selected_path PathReaderDone R).
        -- inversion Hsel; subst. exfalso.
           assert (pc s = RunSelect) as Es.
           { clear - Hs El'.
             step_cases Hs; simpl in El'; try reflexivity; exfalso;
               first [ apply app_inv_head in El'; discriminate El'
                     | apply (f_equal (@List.length _)) in El';
                       rewrite length_app in El'; simpl in El'; lia ]. }
           rewrite Es in Hc1. discriminate Hc1.
Qed.

(** X6.  After [run] has closed the raw stream the writer goroutine does
    nothing more: nothing is taken from [writec] and nothing is written to
    the codec.  When the [select] took case [<-readerDone] the reader does
    nothing more either, so that nothing at all uses the stream after its
    [Close]. *)
Theorem X6_no_write_after_close (ls : list Label) (s : State)
    (pre post : list Entry) :
  run ch ls = Some s ->
  log s = pre ++ (TRun, ACloseRwc) :: post ->
  by_task TWriter post = [] /\
  (In (TRun, ASelect PathReaderDone) (log s) -> by_task TReader post = []).
Proof.
  intros E El. exact (after_close_inv (run_Reachable _ E) _ _ El).
Qed.

End MoreRun.

(** * Properties of the dialect generator *)

(** ** Strings and their order *)

Section StringFacts.
Local Open Scope string_scope.

Lemma list_ascii_of_string_app (a b : string) :
  list_ascii_of_string (a ++ b) =
  (list_ascii_of_string a ++ list_ascii_of_string b)%list.
Proof. induction a as [|c a IH]; simpl; [reflexivity | now rewrite IH]. Qed.

Lemma string_of_list_ascii_app (a b : list ascii) :
  string_of_list_ascii (a ++ b)%list =
  string_of_list_ascii a ++ string_of_list_ascii b.
Proof. induction a as [|c a IH]; simpl; [reflexivity | now rewrite IH]. Qed.

Lemma forallb_rev (A : Type) (f : A -> bool) (l : list A) :
  forallb f (rev l) = forallb f l.
Proof.
  induction l as [|a l IH]; [reflexivity|]. simpl.
  rewrite forallb_app, IH. simpl. rewrite andb_true_r. apply andb_comm.
Qed.

Lemma span_spec (A : Type) (p : A -> bool) (l yes rest : list A) :
  span p l = (yes, rest) ->
  l = (yes ++ rest)%list /\ forallb p yes = true /\
  match rest with [] => True | a :: _ => p a = false end.
Proof.
  revert yes rest. induction l as [|a l IH]; intros yes rest E; simpl in E.
  - inversion E. auto.
  - destruct (p a) eqn:Ea.
    + destruct (span p l) as [y r]. inversion E; subst.
      destruct (IH y rest eq_refl) as (-> & Hy & Hr). simpl. rewrite Ea. auto.
    + inversion E; subst. simpl. auto.
Qed.

Lemma span_app (A : Type) (p : A -> bool) (yes rest : list A) :
  forallb p yes = true ->
  match rest with [] => True | a :: _ => p a = false end ->
  span p (yes ++ rest) = (yes, rest).
Proof.
  intros Hy Hr. induction yes as [|a yes IH]; simpl in *.
  - destruct rest as [|b rest]; [reflexivity|]. simpl. now rewrite Hr.
  - apply andb_true_iff in Hy. destruct Hy as [Ha Hy]. rewrite Ha.
    now rewrite (IH Hy).
Qed.

Lemma Ascii_compare_refl (c : ascii) : Ascii.compare c c = Eq.
Proof. unfold Ascii.compare. apply N.compare_refl. Qed.

Lemma String_leb_refl (a : string) : String.leb a a = true.
Proof.
  unfold String.leb. induction a as [|c a IH]; simpl; [reflexivity|].
  now rewrite Ascii_compare_refl.
Qed.

Lemma String_leb_trans (a b c : string) :
  String.leb a b = true -> String.leb b c = true -> String.leb a c = true.
Proof.
  unfold String.leb. revert b c.
  induction a as [|x a IH]; intros [|y b] [|z c]; simpl; auto;
    try discriminate.
  unfold Ascii.compare.
  destruct (N.compare_spec (N_of_ascii x) (N_of_ascii y)) as [E1|L1|G1];
    destruct (N.compare_spec (N_of_ascii y) (N_of_ascii z)) as [E2|L2|G2];
    try discriminate; intros H1 H2.
  - rewrite E1, E2, N.compare_refl. now apply (IH b c).
  - rewrite E1. now apply N.compare_lt_iff in L2; rewrite L2.
  - rewrite <- E2. now apply N.compare_lt_iff in L1; rewrite L1.
  - assert (N_of_ascii x < N_of_ascii z)%N as L by lia.
    apply N.compare_lt_iff in L. now rewrite L.
Qed.

Lemma String_leb_false (a b : string) :
  String.leb a b = false -> String.leb b a = true.
Proof.
  intros E. destruct (String.leb_total a b) as [T | T]; congruence.
Qed.

(** *** [sort.Strings] does not depend on the order of its input *)

Lemma insert_string_comm (x y : string) (l : list string) :
  insert_string x (insert_string y l) = insert_string y (insert_string x l).
Proof.
  induction l as [|z l IH]; simpl.
  - destruct (String.leb x y) eqn:Exy, (String.leb y x) eqn:Eyx;
      try reflexivity.
    + now rewrite (String.leb_antisym _ _ Exy Eyx).
    + apply String_leb_false in Exy. congruence.
  - destruct (String.leb y z) eqn:Eyz, (String.leb x z) eqn:Exz; simpl;
      rewrite ?Eyz, ?Exz.
    + destruct (String.leb x y) eqn:Exy, (String.leb y x) eqn:Eyx;
        try reflexivity.
      * now rewrite (String.leb_antisym _ _ Exy Eyx).
      * apply String_leb_false in Exy. congruence.
    + assert (String.leb x y = false) as Exy.
      { destruct (String.leb x y) eqn:Exy; [|reflexivity].
        now rewrite (String_leb_trans _ _ _ Exy Eyz) in Exz. }
      now rewrite Exy.
    + assert (String.leb y x = false) as Eyx.
      { destruct (String.leb y x) eqn:Eyx; [|reflexivity].
        now rewrite (String_leb_trans _ _ _ Eyx Exz) in Eyz. }
      now rewrite Eyx.
    + now rewrite IH.
Qed.

Lemma sort_Strings_Permutation (l l' : list string) :
  Permutation l l' -> sort_Strings l = sort_Strings l'.
Proof.
  induction 1 as [|x l l' _ IH|x y l|l l' l'' _ IH1 _ IH2]; simpl.
  - reflexivity.
  - now rewrite IH.
  - apply insert_string_comm.
  - now rewrite IH1.
Qed.

End StringFacts.

(** ** The two expressions *)

Section Expressions.
Local Open Scope string_scope.

Lemma string_app_assoc (a b c : string) : (a ++ b) ++ c = a ++ (b ++ c).
Proof. induction a as [|x a IH]; simpl; [reflexivity | now rewrite IH]. Qed.

Lemma string_of_list_ascii_nil (l : list ascii) :
  string_of_list_ascii l = "" -> l = [].
Proof. destruct l; [reflexivity | discriminate]. Qed.

Lemma rev_eq_nil (A : Type) (l : list A) : rev l = [] -> l = [].
Proof.
  intros E. apply (f_equal (@rev A)) in E. now rewrite rev_involutive in E.
Qed.

Lemma reTypeIsArray_sound (s p d : string) :
  reTypeIsArray s = Some (p, d) ->
  s = p ++ "[" ++ d ++ "]" /\
  p <> "" /\ all_chars no_line_feed p = true /\
  d <> "" /\ all_chars is_digit d = true.
Proof.
  unfold reTypeIsArray, all_chars.
  destruct (rev (list_ascii_of_string s)) as [|c r] eqn:Er; [discriminate|].
  destruct (Ascii.eqb_spec c "]"); [subst c|discriminate].
  destruct (span is_digit r) as [yes rest] eqn:Es.
  destruct yes as [|d0 ds]; [discriminate|].
  destruct rest as [|o [|p0 ps]]; try discriminate.
  destruct (Ascii.eqb_spec o "["); [subst o|discriminate].
  destruct (forallb no_line_feed (p0 :: ps)) eqn:Ep; [|discriminate].
  simpl. intros E. inversion E; subst. clear E.
  apply span_spec in Es. destruct Es as (-> & Hd & _).
  apply (f_equal (@rev ascii)) in Er. rewrite rev_involutive in Er.
  assert (s = string_of_list_ascii (list_ascii_of_string s)) as Hs
    by (now rewrite string_of_list_ascii_of_string).
  rewrite Er in Hs. simpl in Hs.
  repeat rewrite ?rev_app_distr, ?string_of_list_ascii_app in Hs.
  simpl in Hs.
  repeat rewrite ?rev_app_distr, ?string_of_list_ascii_app, <- ?app_assoc
    in Hs.
  simpl in Hs.
  split.
  { rewrite Hs. rewrite !string_of_list_ascii_app. simpl.
    rewrite !string_app_assoc. reflexivity. }
  rewrite !list_ascii_of_string_of_list_ascii.
  split; [intros E; apply string_of_list_ascii_nil in E;
          destruct (rev ps); discriminate E|].
  split; [change (rev ps ++ [p0])%list with (rev (p0 :: ps));
          now rewrite forallb_rev|].
  split; [intros E; apply string_of_list_ascii_nil in E;
          destruct (rev ds); discriminate E|].
  change (rev ds ++ [d0])%list with (rev (d0 :: ds)).
  now rewrite forallb_rev.
Qed.

Lemma reTypeIsArray_complete (p d : string) :
  p <> "" -> all_chars no_line_feed p = true ->
  d <> "" -> all_chars is_digit d = true ->
  reTypeIsArray (p ++ "[" ++ d ++ "]") = Some (p, d).
Proof.
  unfold reTypeIsArray, all_chars. intros Hp Hpl Hd Hdl.
  rewrite !list_ascii_of_string_app. simpl.
  rewrite !rev_app_distr. simpl. rewrite rev_app_distr. simpl.
  rewrite <- app_assoc. simpl.
  rewrite span_app; [| now rewrite forallb_rev | reflexivity].
  destruct (rev (list_ascii_of_string d)) as [|d0 ds] eqn:Ed.
  { apply rev_eq_nil in Ed. exfalso. apply Hd.
    now rewrite <- (string_of_list_ascii_of_string d), Ed. }
  destruct (rev (list_ascii_of_string p)) as [|p0 ps] eqn:Ep.
  { apply rev_eq_nil in Ep. exfalso. apply Hp.
    now rewrite <- (string_of_list_ascii_of_string p), Ep. }
  change (no_line_feed p0 && forallb no_line_feed ps)
    with (forallb no_line_feed (p0 :: ps)).
  change (rev ps ++ [p0])%list with (rev (p0 :: ps)).
  change (rev ds ++ [d0])%list with (rev (d0 :: ds)).
  rewrite <- Ep, <- Ed, forallb_rev, Hpl. simpl.
  rewrite !rev_involutive, !string_of_list_ascii_of_string.
  reflexivity.
Qed.

(** X9.  [reTypeIsArray] matches exactly the texts of the form
    [p ++ "[" ++ d ++ "]"] in which [p] is not empty and has no line feed
    and [d] is a non-empty run of digits, and its two groups are then [p]
    and [d]: the text is split at its last opening bracket. *)
Theorem X9_reTypeIsArray_matches (s p d : string) :
  reTypeIsArray s = Some (p, d) <->
  s = p ++ "[" ++ d ++ "]" /\
  p <> "" /\ all_chars no_line_feed p = true /\
  d <> "" /\ all_chars is_digit d = true.
Proof.
  split.
  - apply reTypeIsArray_sound.
  - intros (-> & Hp & Hpl & Hd & Hdl). now apply reTypeIsArray_complete.
Qed.

End Expressions.

(** ** Fields and messages *)

Section FieldFacts.
Local Open Scope string_scope.

Variable DialectMsgDefToGo : string -> string.
Variable DialectFieldDefToGo : string -> string.
Variable DialectFieldGoToDef : string -> string.
Variable DialectTypeDefToGo : string -> string.
Variable range_map : list (string * string) -> list (string * string).

Lemma string_app_nil_r (a : string) : a ++ "" = a.
Proof. induction a as [|x a IH]; simpl; [reflexivity | now rewrite IH]. Qed.

Lemma eqb_empty (a : string) : (a =? "") = false -> a <> "".
Proof. intros E ->. discriminate E. Qed.

Lemma neq_eqb_empty (a : string) : a <> "" -> (a =? "") = false.
Proof. intros N. destruct a; [now elim N | reflexivity]. Qed.

(** The three tags sort in the order of their keys, whatever their
    values. *)
Lemma sort_tags (l : list (string * string)) (ext len name : bool)
    (vl vn : string) :
  Permutation l
    ((if name then [("mavname", vn)] else []) ++
     (if len then [("mavlen", vl)] else []) ++
     (if ext then [("mavext", "true")] else []))%list ->
  sort_Strings (map fmt_tag l) =
  ((if ext then [fmt_tag ("mavext", "true")] else []) ++
   (if len then [fmt_tag ("mavlen", vl)] else []) ++
   (if name then [fmt_tag ("mavname", vn)] else []))%list.
Proof.
  intros P. apply (Permutation_map fmt_tag) in P.
  rewrite (sort_Strings_Permutation P).
  destruct ext, len, name; reflexivity.
Qed.

Lemma fieldProcess_unknown (field : DialectField) :
  DialectTypeDefToGo (elementType field) = "" ->
  fieldProcess DialectFieldDefToGo DialectFieldGoToDef DialectTypeDefToGo
    range_map field = Err "unknown type: ".
Proof.
  unfold fieldProcess, elementType, normType.
  destruct (reTypeIsArray _) as [[m1 m2]|].
  - destruct (m1 =? "char") eqn:Ec.
    + apply String.eqb_eq in Ec. subst m1. intros Z. now rewrite Z.
    + intros Z. now rewrite Z.
  - intros Z. now rewrite Z.
Qed.

Lemma fieldProcess_known (field : DialectField) :
  DialectTypeDefToGo (elementType field) <> "" ->
  exists o,
    fieldProcess DialectFieldDefToGo DialectFieldGoToDef DialectTypeDefToGo
      range_map field = Ok o.
Proof.
  unfold fieldProcess, elementType, normType.
  destruct (reTypeIsArray _) as [[m1 m2]|].
  - destruct (m1 =? "char") eqn:Ec.
    + apply String.eqb_eq in Ec. subst m1. intros N.
      rewrite (neq_eqb_empty N). eexists; reflexivity.
    + intros N. rewrite (neq_eqb_empty N). eexists; reflexivity.
  - intros N. rewrite (neq_eqb_empty N). eexists; reflexivity.
Qed.

Lemma fieldProcess_Ok_iff (field : DialectField) :
  (exists o,
     fieldProcess DialectFieldDefToGo DialectFieldGoToDef DialectTypeDefToGo
       range_map field = Ok o) <->
  DialectTypeDefToGo (elementType field) <> "".
Proof.
  split; [|apply fieldProcess_known].
  intros [o E] Z. apply fieldProcess_unknown in Z. congruence.
Qed.

Lemma fieldProcess_Err_inv (field : DialectField) (e : string) :
  fieldProcess DialectFieldDefToGo DialectFieldGoToDef DialectTypeDefToGo
    range_map field = Err e ->
  DialectTypeDefToGo (elementType field) = "" /\ e = "unknown type: ".
Proof.
  intros E.
  destruct (String.eqb_spec (DialectTypeDefToGo (elementType field)) "")
    as [Z|N].
  - split; [exact Z|]. apply fieldProcess_unknown in Z. congruence.
  - apply fieldProcess_known in N. destruct N as [o N]. congruence.
Qed.

(** X8.  [fieldProcess] fails exactly when [DialectTypeDefToGo] does not
    know the type of the field (for an array or a string, of its
    elements), and the message of the error is then always
    ["unknown type: "], with nothing after the colon: the type has been
    replaced by the empty result of the conversion before it is printed. *)
Theorem X8_fieldProcess_error (field : DialectField) (e : string) :
  fieldProcess DialectFieldDefToGo DialectFieldGoToDef DialectTypeDefToGo
    range_map field = Err e <->
  DialectTypeDefToGo (elementType field) = "" /\ e = "unknown type: ".
Proof.
  split; [apply fieldProcess_Err_inv|].
  intros [Z ->]. now apply fieldProcess_unknown.
Qed.

(** X7.  Whatever the order in which [range] visits the map of tags, the
    line of a field of a known type is its Go name, a space, the length in
    brackets when the field is an array, the Go type, and then, when there
    is a tag, the tags between back quotes in the fixed order [mavext],
    [mavlen], [mavname]. *)
Theorem X7_fieldProcess_line (field : DialectField) :
  (forall m, Permutation (range_map m) m) ->
  DialectTypeDefToGo (elementType field) <> "" ->
  fieldProcess DialectFieldDefToGo DialectFieldGoToDef DialectTypeDefToGo
    range_map field =
  Ok {| Line := DialectFieldDefToGo (Field_Name field) ++ " " ++
                arrayPrefix field ++
                DialectTypeDefToGo (elementType field) ++
                tagsText DialectFieldDefToGo DialectFieldGoToDef field |}.
Proof.
  intros HP.
  unfold fieldProcess, elementType, arrayPrefix, tagsText, tagsInOrder,
    normType.
  set (nm := DialectFieldGoToDef (DialectFieldDefToGo (Field_Name field))
             =? Field_Name field).
  destruct (reTypeIsArray _) as [[m1 m2]|] eqn:Ea.
  - apply reTypeIsArray_sound in Ea. destruct Ea as (_ & _ & _ & Hd & _).
    destruct (m1 =? "char") eqn:Ec.
    + apply String.eqb_eq in Ec. subst m1. intros Ht.
      rewrite (neq_eqb_empty Ht).
      set (tags := if Field_Extension field then _ else _).
      assert (Permutation (range_map tags)
                ((if negb nm then [("mavname", Field_Name field)] else []) ++
                 (if true then [("mavlen", m2)] else []) ++
                 (if Field_Extension field then [("mavext", "true")] else []))
                %list) as P
        by (rewrite HP; subst tags;
            destruct nm, (Field_Extension field); reflexivity).
      rewrite (@sort_tags _ (Field_Extension field) true (negb nm) m2
                 (Field_Name field) P).
      subst tags. f_equal. f_equal.
      destruct nm, (Field_Extension field); simpl;
        rewrite ?string_app_assoc; reflexivity.
    + intros Ht. rewrite (neq_eqb_empty Ht), (neq_eqb_empty Hd).
      set (tags := if Field_Extension field then _ else _).
      assert (Permutation (range_map tags)
                ((if negb nm then [("mavname", Field_Name field)] else []) ++
                 (if false then [("mavlen", "")] else []) ++
                 (if Field_Extension field then [("mavext", "true")] else []))
                %list) as P
        by (rewrite HP; subst tags;
            destruct nm, (Field_Extension field); reflexivity).
      rewrite (@sort_tags _ (Field_Extension field) false (negb nm) ""
                 (Field_Name field) P).
      subst tags. f_equal. f_equal.
      destruct nm, (Field_Extension field); simpl;
        rewrite ?string_app_assoc, ?string_app_nil_r; simpl;
        rewrite ?string_app_assoc; reflexivity.
  - intros Ht. rewrite (neq_eqb_empty Ht).
    set (tags := if Field_Extension field then _ else _).
    assert (Permutation (range_map tags)
              ((if negb nm then [("mavname", Field_Name field)] else []) ++
               (if false then [("mavlen", "")] else []) ++
               (if Field_Extension field then [("mavext", "true")] else []))
              %list) as P
      by (rewrite HP; subst tags;
          destruct nm, (Field_Extension field); reflexivity).
    rewrite (@sort_tags _ (Field_Extension field) false (negb nm) ""
               (Field_Name field) P).
    subst tags. f_equal. f_equal.
    destruct nm, (Field_Extension field); simpl;
      rewrite ?string_app_assoc, ?string_app_nil_r; simpl;
      rewrite ?string_app_assoc; reflexivity.
Qed.

Lemma fields_loop_Ok (fs : list DialectField) (acc r : list outField) :
  fields_loop DialectFieldDefToGo DialectFieldGoToDef DialectTypeDefToGo
    range_map fs acc = Ok r <->
  exists outs,
    r = (acc ++ outs)%list /\
    Forall2 (fun f o =>
               fieldProcess DialectFieldDefToGo DialectFieldGoToDef
                 DialectTypeDefToGo range_map f = Ok o) fs outs.
Proof.
  revert acc. induction fs as [|f fs IH]; intros acc; simpl.
  - split.
    + intros E. inversion E. exists []. now rewrite app_nil_r.
    + intros (outs & -> & F). inversion F. now rewrite app_nil_r.
  - destruct (fieldProcess _ _ _ _ f) as [o|e] eqn:Ef.
    + rewrite IH. split.
      * intros (outs & -> & F). exists (o :: outs).
        rewrite <- app_assoc. split; [reflexivity | now constructor].
      * intros (outs & -> & F). inversion F as [|? o' ? outs' Eo F']; subst.
        assert (o' = o) by congruence. subst o'.
        exists outs'. rewrite <- app_assoc. now split.
    + split; [discriminate|].
      intros (outs & _ & F). inversion F; congruence.
Qed.

Lemma fields_loop_Err (fs : list DialectField) (acc : list outField)
    (e : string) :
  fields_loop DialectFieldDefToGo DialectFieldGoToDef DialectTypeDefToGo
    range_map fs acc = Err e <->
  exists pre f post,
    fs = (pre ++ f :: post)%list /\
    Forall (fun f' => exists o,
              fieldProcess DialectFieldDefToGo DialectFieldGoToDef
                DialectTypeDefToGo range_map f' = Ok o) pre /\
    fieldProcess DialectFieldDefToGo DialectFieldGoToDef DialectTypeDefToGo
      range_map f = Err e.
Proof.
  revert acc. induction fs as [|f fs IH]; intros acc; simpl.
  - split; [discriminate|]. intros (pre & f & post & E & _).
    destruct pre; discriminate E.
  - destruct (fieldProcess _ _ _ _ f) as [o|e'] eqn:Ef.
    + rewrite IH. split.
      * intros (pre & g & post & -> & F & Eg).
        exists (f :: pre), g, post. repeat split; trivial.
        constructor; [now exists o | exact F].
      * intros (pre & g & post & E & F & Eg).
        destruct pre as [|f' pre]; simpl in E; inversion E; subst.
        -- congruence.
        -- inversion F; subst. now exists pre, g, post.
    + split.
      * intros E. inversion E; subst. exists [], f, fs. now repeat split.
      * intros (pre & g & post & E & F & Eg).
        destruct pre as [|f' pre]; simpl in E; inversion E; subst.
        -- congruence.
        -- inversion F as [|? ? [o Eo] ?]; subst. congruence.
Qed.

(** X10.  [messageProcess] succeeds exactly when the name of the message
    is made of capital letters, digits and underscores and every field can
    be processed; the result then has the converted name, the same id, and
    one line for each field, in the order of the fields. *)
Theorem X10_messageProcess_success (msg : DefinitionMessage)
    (out : outMessage) :
  messageProcess DialectMsgDefToGo DialectFieldDefToGo DialectFieldGoToDef
    DialectTypeDefToGo range_map msg = Ok out <->
  reMsgName (Msg_Name msg) = true /\
  outMessage_Name out = DialectMsgDefToGo (Msg_Name msg) /\
  Id out = Msg_Id msg /\
  Forall2 (fun f o =>
             fieldProcess DialectFieldDefToGo DialectFieldGoToDef
               DialectTypeDefToGo range_map f = Ok o)
    (Msg_Fields msg) (Fields out).
Proof.
  unfold messageProcess.
  destruct (reMsgName (Msg_Name msg)); simpl.
  - destruct (fields_loop _ _ _ _ (Msg_Fields msg) []) as [r|e] eqn:El.
    + apply fields_loop_Ok in El. destruct El as (outs & -> & F).
      simpl in *. split.
      * intros E. inversion E; subst. simpl. now repeat split.
      * intros (_ & En & Ei & F'). destruct out as [n i fs]. simpl in *.
        subst. f_equal. f_equal.
        clear - F F'. revert fs F'.
        induction F as [|f o l l' Eo F IH]; intros fs F';
          inversion F'; subst; [reflexivity|].
        f_equal; [congruence | now apply IH].
    + split; [discriminate|]. intros (_ & _ & _ & F).
      assert (fields_loop DialectFieldDefToGo DialectFieldGoToDef
                DialectTypeDefToGo range_map (Msg_Fields msg) []
              = Ok (Fields out)) as El'
        by (apply fields_loop_Ok; now exists (Fields out)).
      congruence.
  - split; [discriminate | intros [E _]; discriminate E].
Qed.

(** X11.  An error of [messageProcess] is either the one for the name,
    which quotes the name and is returned before any field is looked at,
    or the error of the first field that cannot be processed, which is
    ["unknown type: "] and names neither the field nor the type. *)
Theorem X11_messageProcess_error (msg : DefinitionMessage) (e : string) :
  messageProcess DialectMsgDefToGo DialectFieldDefToGo DialectFieldGoToDef
    DialectTypeDefToGo range_map msg = Err e <->
  (reMsgName (Msg_Name msg) = false /\
   e = "unsupported message name: " ++ Msg_Name msg) \/
  (reMsgName (Msg_Name msg) = true /\
   e = "unknown type: " /\
   exists pre f post,
     Msg_Fields msg = (pre ++ f :: post)%list /\
     Forall (fun f' => DialectTypeDefToGo (elementType f') <> "") pre /\
     DialectTypeDefToGo (elementType f) = "").
Proof.
  pose proof fieldProcess_Ok_iff as Hok.
  assert (forall f e',
            fieldProcess DialectFieldDefToGo DialectFieldGoToDef
              DialectTypeDefToGo range_map f = Err e' <->
            DialectTypeDefToGo (elementType f) = "" /\
            e' = "unknown type: ") as Herr.
  { intros f e'. split; [apply fieldProcess_Err_inv|].
    intros [Z ->]. now apply fieldProcess_unknown. }
  unfold messageProcess.
  destruct (reMsgName (Msg_Name msg)); simpl.
  - destruct (fields_loop _ _ _ _ (Msg_Fields msg) []) as [r|e'] eqn:El.
    + split; [discriminate|].
      intros [[E _] | (_ & _ & pre & f & post & Ef & F & Z)];
        [discriminate E|].
      assert (fields_loop DialectFieldDefToGo DialectFieldGoToDef
                DialectTypeDefToGo range_map (Msg_Fields msg) []
              = Err "unknown type: ") as El'.
      { apply fields_loop_Err. exists pre, f, post.
        repeat split; trivial.
        - eapply Forall_impl; [|exact F]. intros a Ha. now apply Hok.
        - now apply Herr. }
      congruence.
    + apply fields_loop_Err in El.
      destruct El as (pre & f & post & Ef & F & Er).
      apply Herr in Er. destruct Er as [Z ->].
      split.
      * intros E. inversion E; subst. right. repeat split; trivial.
        exists pre, f, post. repeat split; trivial.
        eapply Forall_impl; [|exact F]. intros a Ha. now apply Hok.
      * intros [[E _] | (_ & -> & _)]; [discriminate E | reflexivity].
  - split.
    + intros E. inversion E. now left.
    + intros [[_ ->] | [E _]]; [reflexivity | discriminate E].
Qed.

End FieldFacts.

(** * The claims at concrete executions *)

(** [newChannel] on a configuration the codec accepts, twice in a row: each
    channel gets the next byte of the entropy. *)
Example newChannel_accepts :
  let (r1, w1) :=
    newChannel demo_NewParser (demo_node None) "tcp"%string "tcp:1"%string 3
      demo_world in
  let (r2, w2) :=
    newChannel demo_NewParser (demo_node None) "tcp"%string "tcp:2"%string 4
      w1 in
  r1 = inl {| ch_Endpoint := "tcp"%string; label := "tcp:1"%string; rwc := 3;
              n := demo_node None; parser := 42 |} /\
  r2 = inl {| ch_Endpoint := "tcp"%string; label := "tcp:2"%string; rwc := 4;
              n := demo_node None; parser := 7 |} /\
  drawn w2 = 2 /\ stream_ops w2 = [] /\ goroutines w2 = 0.
Proof. repeat split. Qed.

Example newChannel_rejects :
  fst (newChannel demo_NewParser demo_node_v9 "tcp"%string "tcp:1"%string 3
         demo_world) =
  inr (false, "invalid version"%string).
Proof. reflexivity. Qed.

Ltac run_it := vm_compute; reflexivity.
Ltac pick_member := vm_compute; repeat (try (left; reflexivity); right).

Lemma exec_reader_first :
  run (demo_channel None) run_reader_first = Some st_reader_first.
Proof. run_it. Qed.

Lemma exec_terminate_first :
  run (demo_channel (Some tt)) run_terminate_first =
  Some st_terminate_first.
Proof. run_it. Qed.

(** C1 as stated fails: in this complete execution, in which termination is
    requested while the reader waits in [Read] and a frame arrives before
    [run] closes the stream, a [Frame] event follows [ChannelClose]. *)
Lemma C1_counterexample :
  exists s,
    run (demo_channel (Some tt)) run_terminate_first = Some s /\
    done s = true /\
    events (log s) =
      [EventChannelOpen (demo_channel (Some tt));
       EventChannelClose (demo_channel (Some tt));
       EventFrame 7 (demo_channel (Some tt))] /\
    lifecycle_pattern (events (log s)) = false.
Proof.
  exists st_terminate_first. repeat split; run_it.
Qed.

(** [ChannelClose] can even be the first event: here termination is requested
    before the reader goroutine got to send [ChannelOpen]. *)
Example close_before_open :
  option_map (fun s => (done s, events (log s)))
    (run (demo_channel None) run_terminate_at_once) =
  Some (true, [EventChannelClose (demo_channel None);
               EventChannelOpen (demo_channel None)]).
Proof. run_it. Qed.

(** The execution the specification gives as a test: the stream yields
    [bad, bad, good1, good2] and ends. *)
Example events_reader_first :
  events (log st_reader_first) =
  [EventChannelOpen (demo_channel None);
   EventParseError bad (demo_channel None);
   EventParseError bad (demo_channel None);
   EventFrame 1 (demo_channel None);
   EventFrame 2 (demo_channel None);
   EventChannelClose (demo_channel None)].
Proof. run_it. Qed.

(** With a hook: the stream request of the hook is on [eventsOut] before
    the [Frame] event of the frame the hook was called with. *)
Example events_with_hook :
  events (log st_with_hook) =
  [EventChannelOpen (demo_channel (Some tt));
   EventStreamRequested (demo_channel (Some tt)) x01 x01;
   EventFrame 1 (demo_channel (Some tt));
   EventFrame 2 (demo_channel (Some tt));
   EventChannelClose (demo_channel (Some tt))] /\
  own_events (log st_with_hook) =
  [EventChannelOpen (demo_channel (Some tt));
   EventFrame 1 (demo_channel (Some tt));
   EventFrame 2 (demo_channel (Some tt));
   EventChannelClose (demo_channel (Some tt))] /\
  lifecycle_pattern (events (log st_with_hook)) = false /\
  lifecycle_pattern (own_events (log st_with_hook)) = true.
Proof. repeat split; run_it. Qed.

Lemma exec_with_hook :
  run (demo_channel (Some tt)) run_with_hook = Some st_with_hook.
Proof. run_it. Qed.

Lemma C1_witness :
  run (demo_channel (Some tt)) run_with_hook = Some st_with_hook /\
  (exists r1 c r2,
     own_events (log st_with_hook) = r1 ++ c ++ r2 /\
     open_then_data (demo_channel (Some tt)) (r1 ++ r2) /\
     (c = [] \/ c = [EventChannelClose (demo_channel (Some tt))]) /\
     (In (TRun, ASelect PathReaderDone) (log st_with_hook) -> r2 = []) /\
     (done st_with_hook = true ->
      c = [EventChannelClose (demo_channel (Some tt))] /\ r1 ++ r2 <> []) /\
     (done st_with_hook = true ->
      In (TRun, ASelect PathReaderDone) (log st_with_hook) ->
      lifecycle_pattern (own_events (log st_with_hook)) = true)) /\
  (nodeStreamRequest (n (demo_channel (Some tt))) = None ->
   events (log st_with_hook) = own_events (log st_with_hook)) /\
  (forall pre ev post,
     log st_with_hook = pre ++ (THook, APublish ev) :: post ->
     exists sr f pre',
       nodeStreamRequest (n (demo_channel (Some tt))) = Some sr /\
       by_task TReader pre = pre' ++ [ARead (ReadFrame f)] /\
       ((by_task TReader post = [] /\
         rpc st_with_hook = ROnEventFrame sr f) \/
        exists post',
          by_task TReader post =
          AOnEventFrame sr (EventFrame f (demo_channel (Some tt)))
          :: post')) /\
  (In (TRun, ASelect PathReaderDone) (log st_with_hook) ->
   forall pre post,
     log st_with_hook =
     pre ++ (TRun, APublish (EventChannelClose (demo_channel (Some tt))))
         :: post ->
     events post = []) /\
  ((forall ev, In (THook, APublish ev) (log st_with_hook) ->
      is_stream_requested ev = true) ->
   filter (fun ev => negb (is_stream_requested ev))
     (events (log st_with_hook)) =
   own_events (log st_with_hook)).
Proof.
  split; [exact exec_with_hook|].
  exact (C1_events_of_a_channel (demo_channel (Some tt)) run_with_hook
           exec_with_hook).
Defined.

Lemma C2_witness :
  run (demo_channel (Some tt)) run_terminate_first =
    Some st_terminate_first /\
  done st_terminate_first = true /\
  count is_select (log st_terminate_first) = 1 /\
  count is_close_rwc (log st_terminate_first) = 1.
Proof.
  assert (done st_terminate_first = true) as Hd by run_it.
  split; [exact exec_terminate_first|]. split; [exact Hd|].
  destruct (C2_one_path_one_close (demo_channel (Some tt))
              run_terminate_first exec_terminate_first) as (_ & _ & _ & W).
  destruct (W Hd) as (W1 & W2 & _). split; assumption.
Defined.

Lemma C3_witness :
  run (demo_channel None) run_reader_first = Some st_reader_first /\
  In (TRun, ASelect PathReaderDone) (log st_reader_first) /\
  done st_reader_first = true /\
  by_task TRun (log st_reader_first) =
    [AGo TReader; AGo TWriter; ASelect PathReaderDone;
     APublish (EventChannelClose (demo_channel None)); AReport;
     AAwaitTerminate; ACloseWritec; AJoin TWriter; ACloseRwc; ACloseDone].
Proof.
  assert (In (TRun, ASelect PathReaderDone) (log st_reader_first)) as Hs
    by pick_member.
  assert (done st_reader_first = true) as Hd by run_it.
  split; [exact exec_reader_first|]. split; [exact Hs|]. split; [exact Hd|].
  destruct (C3_shutdown_after_reader_done (demo_channel None)
              run_reader_first exec_reader_first Hs) as (_ & W & _).
  exact (W Hd).
Defined.

Lemma C4_witness :
  run (demo_channel (Some tt)) run_terminate_first =
    Some st_terminate_first /\
  In (TRun, ASelect PathTerminate) (log st_terminate_first) /\
  done st_terminate_first = true /\
  by_task TRun (log st_terminate_first) =
    [AGo TReader; AGo TWriter; ASelect PathTerminate;
     APublish (EventChannelClose (demo_channel (Some tt))); ACloseWritec;
     AJoin TWriter; ACloseRwc; AJoin TReader; ACloseDone].
Proof.
  assert (In (TRun, ASelect PathTerminate) (log st_terminate_first)) as Hs
    by pick_member.
  assert (done st_terminate_first = true) as Hd by run_it.
  split; [exact exec_terminate_first|]. split; [exact Hs|]. split; [exact Hd|].
  destruct (C4_shutdown_after_terminate (demo_channel (Some tt))
              run_terminate_first exec_terminate_first Hs) as (_ & W & _).
  exact (W Hd).
Defined.


Lemma C6_witness :
  run (demo_channel None) run_reader_first = Some st_reader_first /\
  by_task TReader (log st_reader_first) =
    [APublish (EventChannelOpen (demo_channel None))] ++
    ARead (ReadError bad) :: skipn 2 (by_task TReader (log st_reader_first)) /\
  isParserError bad = true /\
  ((skipn 2 (by_task TReader (log st_reader_first)) = [] /\
    rpc st_reader_first = RPublishParseError bad) \/
   (skipn 2 (by_task TReader (log st_reader_first)) =
      [APublish (EventParseError bad (demo_channel None))] /\
    rpc st_reader_first = RRead) \/
   (exists r post',
      skipn 2 (by_task TReader (log st_reader_first)) =
      APublish (EventParseError bad (demo_channel None)) :: ARead r :: post')).
Proof.
  assert (by_task TReader (log st_reader_first) =
          [APublish (EventChannelOpen (demo_channel None))] ++
          ARead (ReadError bad) ::
          skipn 2 (by_task TReader (log st_reader_first))) as Er by run_it.
  assert (isParserError bad = true) as Ee by run_it.
  split; [exact exec_reader_first|]. split; [exact Er|]. split; [exact Ee|].
  exact (proj1 (C6_parse_error_is_published (H := demo) (demo_channel None)
                  run_reader_first
                  [APublish (EventChannelOpen (demo_channel None))]
                  (skipn 2 (by_task TReader (log st_reader_first))) bad
                  exec_reader_first Er Ee)).
Defined.

Lemma C7_witness :
  run (demo_channel (Some tt)) run_terminate_first =
    Some st_terminate_first /\
  forall pre f c post,
    by_task TReader (log st_terminate_first) =
      pre ++ APublish (EventFrame f c) :: post ->
    c = demo_channel (Some tt) /\
    exists pre',
      pre = pre' ++ [AOnEventFrame tt (EventFrame f (demo_channel (Some tt)))].
Proof.
  split; [exact exec_terminate_first|].
  exact (proj1 (proj2 (C7_hook_runs_before_the_frame_event
                         (demo_channel (Some tt)) run_terminate_first
                         exec_terminate_first))).
Defined.

Lemma C9_witness :
  run (demo_channel None) run_reader_first = Some st_reader_first /\
  by_task TWriter (log st_reader_first) =
    [ATake (DemoMessage 5)] ++
    AWriteMessage 5 (Some eof) ::
    skipn 2 (by_task TWriter (log st_reader_first)) /\
  ((exists m, AWriteMessage 5 (Some eof) = AWriteMessage m (Some eof)) \/
   (exists f, AWriteMessage 5 (Some eof) = AWriteFrame f (Some eof))) /\
  run (demo_channel None) (map erase_label run_reader_first) =
    Some (erase_state st_reader_first) /\
  events (log (erase_state st_reader_first)) = events (log st_reader_first).
Proof.
  assert (by_task TWriter (log st_reader_first) =
          [ATake (DemoMessage 5)] ++
          AWriteMessage 5 (Some eof) ::
          skipn 2 (by_task TWriter (log st_reader_first))) as Ew by run_it.
  assert ((exists m : nat,
             AWriteMessage 5 (Some eof) = AWriteMessage m (Some eof)) \/
          (exists f : nat,
             AWriteMessage 5 (Some eof) = AWriteFrame f (Some eof)))
    as Ha by (left; exists 5; reflexivity).
  split; [exact exec_reader_first|]. split; [exact Ew|]. split; [exact Ha|].
  destruct (C9_write_error_is_dropped (H := demo) (demo_channel None)
              run_reader_first _ _ exec_reader_first Ew Ha)
    as (W1 & W2 & _).
  split; assumption.
Defined.

Lemma C10_witness :
  run (demo_channel None) run_reader_first = Some st_reader_first /\
  by_task TWriter (log st_reader_first) =
    firstn 2 (by_task TWriter (log st_reader_first)) ++
    ATake (DemoOther "x") ::
    skipn 3 (by_task TWriter (log st_reader_first)) /\
  asMessage (DemoOther "x") = None /\ asFrame (DemoOther "x") = None /\
  ((skipn 3 (by_task TWriter (log st_reader_first)) = [] /\
    (wpc st_reader_first = WRange \/ wpc st_reader_first = WReturn)) \/
   (exists b post',
      skipn 3 (by_task TWriter (log st_reader_first)) = b :: post' /\
      loop_again b)) /\
  wpc st_started = WRange /\ writec_closed st_started = false /\
  step (demo_channel None) (LTake (Some (DemoOther "x"))) st_started =
  Some (writer_to WRange (emit TWriter (ATake (DemoOther "x")) st_started)).
Proof.
  assert (by_task TWriter (log st_reader_first) =
          firstn 2 (by_task TWriter (log st_reader_first)) ++
          ATake (DemoOther "x") ::
          skipn 3 (by_task TWriter (log st_reader_first))) as Ew by run_it.
  assert (asMessage (DemoOther "x") = None) as Em by reflexivity.
  assert (asFrame (DemoOther "x") = None) as Ef by reflexivity.
  assert (wpc st_started = WRange) as Hw by reflexivity.
  assert (writec_closed st_started = false) as Hc by reflexivity.
  destruct (C10_other_items_are_discarded (H := demo) (demo_channel None)
              run_reader_first _ _ _ exec_reader_first Ew Em Ef)
    as (W1 & _ & W3).
  split; [exact exec_reader_first|]. split; [exact Ew|]. split; [exact Em|].
  split; [exact Ef|]. split; [exact W1|]. split; [exact Hw|].
  split; [exact Hc|]. exact (W3 st_started Hw Hc).
Defined.


(** * Further properties at concrete executions *)

Lemma X1_witness :
  isParserError eof = false /\
  run (demo_channel None) [LRun; LRun] = Some st_started /\
  exists ls' s',
    run (demo_channel None) ([LRun; LRun] ++ ls') = Some s' /\
    done s' = true.
Proof.
  assert (isParserError eof = false) as He by reflexivity.
  assert (run (demo_channel None) [LRun; LRun] = Some st_started) as Hr
    by run_it.
  split; [exact He|]. split; [exact Hr|].
  exact (X1_run_can_always_return (H := demo) (demo_channel None) eof _
           He Hr).
Defined.

Lemma X2_witness :
  run (demo_channel None) run_reader_first = Some st_reader_first /\
  done st_reader_first = true /\
  In (TRun, ASelect PathReaderDone) (log st_reader_first) /\
  nodeStreamRequest (n (demo_channel None)) = None /\
  own_events (log st_reader_first) =
    EventChannelOpen (demo_channel None) ::
    flat_map (event_of_read (demo_channel None))
      (reads_of (by_task TReader (log st_reader_first))) ++
    [EventChannelClose (demo_channel None)] /\
  events (log st_reader_first) =
    EventChannelOpen (demo_channel None) ::
    flat_map (event_of_read (demo_channel None))
      (reads_of (by_task TReader (log st_reader_first))) ++
    [EventChannelClose (demo_channel None)].
Proof.
  assert (In (TRun, ASelect PathReaderDone) (log st_reader_first)) as Hs
    by pick_member.
  assert (done st_reader_first = true) as Hd by run_it.
  assert (nodeStreamRequest (n (demo_channel None)) = None) as Hn
    by reflexivity.
  split; [exact exec_reader_first|]. split; [exact Hd|]. split; [exact Hs|].
  split; [exact Hn|].
  destruct (X2_events_are_the_reads (H := demo) (demo_channel None)
              run_reader_first exec_reader_first) as (_ & W).
  destruct (W Hd Hs) as [W1 W2].
  split; [exact W1 | exact (W2 Hn)].
Defined.

Lemma X3_witness :
  run (demo_channel None) run_reader_first = Some st_reader_first /\
  wpc st_reader_first = WDone /\
  writes_of (by_task TWriter (log st_reader_first)) =
  flat_map must_write (takes_of (by_task TWriter (log st_reader_first))).
Proof.
  assert (wpc st_reader_first = WDone) as Hw by run_it.
  split; [exact exec_reader_first|]. split; [exact Hw|].
  destruct (X3_writes_are_the_items_taken (H := demo) (demo_channel None)
              run_reader_first exec_reader_first) as (_ & W).
  exact (W Hw).
Defined.

Lemma X4_witness :
  run (demo_channel None) run_reader_first = Some st_reader_first /\
  done st_reader_first = true /\
  rpc st_reader_first = RDone /\ wpc st_reader_first = WDone /\
  writec_closed st_reader_first = true /\
  terminate st_reader_first = true /\
  count is_close_rwc (log st_reader_first) = 1 /\
  (exists pre, log st_reader_first = pre ++ [(TRun, ACloseDone)]) /\
  (forall l, step (demo_channel None) l st_reader_first = None) /\
  (forall ls' s',
     run (demo_channel None) (run_reader_first ++ ls') = Some s' ->
     ls' = []).
Proof.
  assert (done st_reader_first = true) as Hd by run_it.
  split; [exact exec_reader_first|]. split; [exact Hd|].
  exact (X4_done_means_stopped (H := demo) (demo_channel None)
           run_reader_first exec_reader_first Hd).
Defined.

Lemma X5_witness :
  run (demo_channel None) run_reader_first = Some st_reader_first /\
  done st_reader_first = true /\
  In (TRun, ASelect PathReaderDone) (log st_reader_first) /\
  count is_report (log st_reader_first) = 1.
Proof.
  assert (In (TRun, ASelect PathReaderDone) (log st_reader_first)) as Hs
    by pick_member.
  assert (done st_reader_first = true) as Hd by run_it.
  split; [exact exec_reader_first|]. split; [exact Hd|]. split; [exact Hs|].
  destruct (X5_closure_reported_at_most_once (H := demo) (demo_channel None)
              run_reader_first exec_reader_first) as (_ & _ & _ & W).
  exact (W Hd Hs).
Defined.

Lemma X6_witness :
  run (demo_channel None) run_reader_first = Some st_reader_first /\
  log st_reader_first =
    firstn 24 (log st_reader_first) ++
    (TRun, ACloseRwc) :: skipn 25 (log st_reader_first) /\
  by_task TWriter (skipn 25 (log st_reader_first)) = [] /\
  (In (TRun, ASelect PathReaderDone) (log st_reader_first) ->
   by_task TReader (skipn 25 (log st_reader_first)) = []).
Proof.
  assert (log st_reader_first =
          firstn 24 (log st_reader_first) ++
          (TRun, ACloseRwc) :: skipn 25 (log st_reader_first)) as El
    by run_it.
  split; [exact exec_reader_first|]. split; [exact El|].
  exact (X6_no_write_after_close (H := demo) (demo_channel None)
           run_reader_first _ _ exec_reader_first El).
Defined.

(** The line of [demo_field]; the map of tags is visited here in the
    reverse of the order of insertion. *)
Example fieldProcess_demo_field :
  fieldProcess demo_FieldDefToGo demo_FieldGoToDef demo_TypeDefToGo
    (@rev _) demo_field =
  Ok {| Line := ("ParamId string `mavext:" ++ dquote ++ "true" ++ dquote ++
                 " mavlen:" ++ dquote ++ "16" ++ dquote ++
                 " mavname:" ++ dquote ++ "ParamId" ++ dquote ++ "`")%string |}.
Proof. vm_compute. reflexivity. Qed.

Example fieldProcess_demo_array_field :
  fieldProcess demo_FieldDefToGo demo_FieldGoToDef demo_TypeDefToGo
    (@rev _) demo_array_field =
  Ok {| Line := "ParamId [4]float32"%string |}.
Proof. vm_compute. reflexivity. Qed.

Lemma X7_witness :
  (forall m : list (string * string), Permutation (rev m) m) /\
  demo_TypeDefToGo (elementType demo_field) <> ""%string /\
  fieldProcess demo_FieldDefToGo demo_FieldGoToDef demo_TypeDefToGo
    (@rev _) demo_field =
  Ok {| Line := (demo_FieldDefToGo (Field_Name demo_field) ++ " " ++
                 arrayPrefix demo_field ++
                 demo_TypeDefToGo (elementType demo_field) ++
                 tagsText demo_FieldDefToGo demo_FieldGoToDef demo_field)
                %string |}.
Proof.
  assert (forall m : list (string * string), Permutation (rev m) m) as HP
    by (intros m; symmetry; apply Permutation_rev).
  assert (demo_TypeDefToGo (elementType demo_field) <> ""%string) as Ht
    by (vm_compute; discriminate).
  split; [exact HP|]. split; [exact Ht|].
  exact (X7_fieldProcess_line demo_FieldDefToGo demo_FieldGoToDef
           demo_TypeDefToGo (@rev _) demo_field HP Ht).
Defined.
